(** * Qt Charts: spline control points and vertical axis layout

    A shallow embedding of two translation units of the charts add-on:

    - [src/splinechart/qsplineseries.cpp]: the Bezier control points of a
      spline series ([calculateControlPoints], [firstControlPoints],
      [updateControlPoints]) and the pen that the theme gives to the series
      ([initializeTheme]);
    - [src/axis/verticalaxis.cpp]: the geometry pass of a vertical axis
      ([VerticalAxis::updateGeometry]) and the size that the axis asks for
      its title ([VerticalAxis::sizeHint]).

    Conventions of the embedding.

    - [qreal] is C++ [double] in the sources.  It is embedded as the field
      of rationals in canonical form ([Qc]): arithmetic is exact, equality
      is Leibniz equality and every definition computes.  Rounding is
      outside the model.
    - [QVector] and [QList] are lists.  An access out of range is a failed
      assertion in the sources; here the computation returns [None].
    - [for] loops are iterated with [for_loop]; the mutable locals of the
      loop are its state.
    - The objects of the scene graph (lines, rectangles, text items) are
      records kept in lists; a slot of a list is one object. *)

From Stdlib Require Import QArith Qcanon Lqa Lia ZifyNat String.
From stdpp Require Import base option list numbers strings.

(** ** Real numbers *)

Abbreviation qreal := Qc.

(** A literal of the source: [lit 3.5] is [3.5]. *)
Definition lit (q : Q) : qreal := Q2Qc q.

(** [qMin] and [qMax] of [QtGlobal]. *)
Definition qMin (a b : qreal) : qreal := if decide (a < b)%Qc then a else b.
Definition qMax (a b : qreal) : qreal := if decide (a < b)%Qc then b else a.

(** An [int] used as a [qreal]. *)
Definition of_int (n : nat) : qreal := Q2Qc (inject_Z (Z.of_nat n)).

(** ** Vectors and loops *)

(** [v[i]] as an rvalue is [v !! i].  [v[i] = a] is [vput]; a member call
    on [v[i]], such as [v[i].setX(a)], is [vupd]. *)
Definition vput {A} (v : list A) (i : nat) (a : A) : option (list A) :=
  _ ← v !! i; Some (<[i:=a]> v).

Definition vupd {A} (f : A → A) (v : list A) (i : nat) : option (list A) :=
  a ← v !! i; Some (<[i:=f a]> v).

(** [for (i = lo; i < lo + k; ++i) body]: the state is threaded through the
    [k] iterations, a failing iteration fails the loop. *)
Fixpoint for_loop {St : Type} (body : nat → St → option St)
    (i k : nat) (s : St) : option St :=
  match k with
  | O => Some s
  | S k' => s' ← body i s; for_loop body (S i) k' s'
  end.

(** Division by a computed value.  A zero divisor is made a failure, so
    that a result tells that no division by zero took place. *)
Definition divide (a b : qreal) : option qreal :=
  if decide (b = 0%Qc) then None else Some (a / b)%Qc.

(** ** Value types of Qt *)

(** [QPointF]: [px] and [py] are [x()] and [y()]. *)
Record QPointF := mkPoint { px : qreal; py : qreal }.

Definition setX (a : qreal) (p : QPointF) : QPointF := mkPoint a (py p).
Definition setY (a : qreal) (p : QPointF) : QPointF := mkPoint (px p) a.

#[global] Instance QPointF_eq_dec : EqDecision QPointF.
Proof. solve_decision. Defined.

(** [QRectF]: a corner, a width and a height; [QRectF()] is [null]. *)
Module QRectF.

Record t := mk { x : qreal; y : qreal; w : qreal; h : qreal }.

Definition null : t := mk 0 0 0 0.
Definition left (r : t) : qreal := x r.
Definition top (r : t) : qreal := y r.
Definition right (r : t) : qreal := (x r + w r)%Qc.
Definition bottom (r : t) : qreal := (y r + h r)%Qc.
Definition width (r : t) : qreal := w r.
Definition height (r : t) : qreal := h r.
Definition center (r : t) : QPointF :=
  mkPoint (x r + w r / lit 2)%Qc (y r + h r / lit 2)%Qc.

End QRectF.

#[global] Instance QRectF_eq_dec : EqDecision QRectF.t.
Proof. solve_decision. Defined.

(** [QLineF]: the end points [p1 = (x1, y1)] and [p2 = (x2, y2)]. *)
Record QLineF := mkLine { x1 : qreal; y1 : qreal; x2 : qreal; y2 : qreal }.

Definition p1 (l : QLineF) : QPointF := mkPoint (x1 l) (y1 l).

#[global] Instance QLineF_eq_dec : EqDecision QLineF.
Proof. solve_decision. Defined.

(** [QString::isEmpty]. *)
Definition isEmpty (s : string) : bool :=
  match s with EmptyString => true | String _ _ => false end.

(** ** The spline series (qsplineseries.cpp) *)

Module Spline.

Local Open Scope Qc_scope.

(** The series: the points of [QXYSeries] and the control points kept by
    [QSplineSeriesPrivate]. *)
Record QSplineSeries := mkSeries {
  points : list QPointF;
  m_controlPoints : list QPointF
}.

(** [QSplineSeriesPrivate::firstControlPoints].  The state of the first
    loop is [(result, temp, b)], the state of the second is [result]. *)
Definition forward_step (vector : list qreal) (count : nat) (i : nat)
    (st : list qreal * list qreal * qreal) : option (list qreal * list qreal * qreal) :=
  let '(result, temp, b) := st in
  r ← divide 1 b;
  temp ← vput temp i r;
  ti ← temp !! i;
  let b := (if decide (i < count - 1)%nat then lit 4.0 else lit 3.5) - ti in
  vi ← vector !! i;
  rp ← result !! (i - 1)%nat;
  q ← divide (vi - rp) b;
  result ← vput result i q;
  Some (result, temp, b).

Definition backward_step (temp : list qreal) (count : nat) (i : nat)
    (result : list qreal) : option (list qreal) :=
  a ← result !! (count - i - 1)%nat;
  t ← temp !! (count - i)%nat;
  r ← result !! (count - i)%nat;
  vput result (count - i - 1)%nat (a - t * r).

Definition firstControlPoints (vector : list qreal) : option (list qreal) :=
  let count := length vector in
  let result := resize count 0 [] in
  v0 ← vector !! 0%nat;
  result ← vput result 0%nat (v0 / lit 2.0);
  let temp := resize count 0 [] in
  temp ← vput temp 0%nat 0;
  let b := lit 2.0 in
  '(result, temp, _) ← for_loop (forward_step vector count) 1 (count - 1) (result, temp, b);
  for_loop (backward_step temp count) 1 (count - 1) result.

(** [QSplineSeriesPrivate::calculateControlPoints].  [n] is
    [points.count() - 1]; on an empty list it is [-1] in the source and [0]
    here, and [points[0]] fails in both.  The two passes that
    fill [vector], for x and for y, are the same code up to the coordinate
    read; [fill_vector] is that code.  The solver called on [vector] is an
    argument: the series calls [firstControlPoints]. *)
Definition fill_vector (c : QPointF → qreal) (points : list QPointF) (n : nat)
    (vector : list qreal) : option (list qreal) :=
  p0 ← points !! 0%nat;
  p1 ← points !! 1%nat;
  vector ← vput vector 0%nat (c p0 + lit 2 * c p1);
  vector ← for_loop (λ i vector,
      pi ← points !! i;
      pi1 ← points !! (i + 1)%nat;
      vput vector i (lit 4 * c pi + lit 2 * c pi1)) 1 (n - 1 - 1) vector;
  pn1 ← points !! (n - 1)%nat;
  pn ← points !! n;
  vput vector (n - 1)%nat ((lit 8 * c pn1 + c pn) / lit 2.0).

Definition pair_step (points : list QPointF) (n : nat) (xControl yControl : list qreal)
    (i : nat) (st : nat * list QPointF) : option (nat * list QPointF) :=
  let '(j, cps) := st in
  xi ← xControl !! i;
  cps ← vupd (setX xi) cps j;
  yi ← yControl !! i;
  cps ← vupd (setY yi) cps j;
  let j := (j + 1)%nat in
  cps ← (if decide (i < n - 1)%nat then
      pi1 ← points !! (i + 1)%nat;
      xi1 ← xControl !! (i + 1)%nat;
      cps ← vupd (setX (lit 2 * px pi1 - xi1)) cps j;
      yi1 ← yControl !! (i + 1)%nat;
      vupd (setY (lit 2 * py pi1 - yi1)) cps j
    else
      pn ← points !! n;
      xn1 ← xControl !! (n - 1)%nat;
      cps ← vupd (setX ((px pn + xn1) / lit 2)) cps j;
      yn1 ← yControl !! (n - 1)%nat;
      vupd (setY ((py pn + yn1) / lit 2)) cps j);
  Some ((j + 1)%nat, cps).

Definition calculateControlPoints_with (solver : list qreal → option (list qreal))
    (d : QSplineSeries) : option QSplineSeries :=
  let points := points d in
  let cps := m_controlPoints d in
  let n := (length points - 1)%nat in
  if decide (n = 1%nat) then
    p0 ← points !! 0%nat;
    p1 ← points !! 1%nat;
    cps ← vupd (setX ((lit 2 * px p0 + px p1) / lit 3)) cps 0%nat;
    cps ← vupd (setY ((lit 2 * py p0 + py p1) / lit 3)) cps 0%nat;
    c0 ← cps !! 0%nat;
    cps ← vupd (setX (lit 2 * px c0 - px p0)) cps 1%nat;
    cps ← vupd (setY (lit 2 * py c0 - py p0)) cps 1%nat;
    Some (mkSeries points cps)
  else
    let vector := resize n 0 [] in
    vector ← fill_vector px points n vector;
    xControl ← solver vector;
    vector ← fill_vector py points n vector;
    yControl ← solver vector;
    '(_, cps) ← for_loop (pair_step points n xControl yControl) 0 n (0%nat, cps);
    Some (mkSeries points cps).

Definition calculateControlPoints : QSplineSeries → option QSplineSeries :=
  calculateControlPoints_with firstControlPoints.

(** [QPointF()] is the origin; [QVector::resize] keeps the leading elements
    and appends default-constructed ones. *)
Definition origin : QPointF := mkPoint 0 0.

(** [QSplineSeriesPrivate::updateControlPoints]. *)
Definition updateControlPoints_with (solver : list qreal → option (list qreal))
    (d : QSplineSeries) : option QSplineSeries :=
  let count := length (points d) in
  if decide (1 < count)%nat then
    calculateControlPoints_with solver
      (mkSeries (points d) (resize (2 * count - 2) origin (m_controlPoints d)))
  else Some d.

Definition updateControlPoints : QSplineSeries → option QSplineSeries :=
  updateControlPoints_with firstControlPoints.

(** [QSplineSeriesPrivate::controlPoint]. *)
Definition controlPoint (d : QSplineSeries) (index : nat) : option QPointF :=
  m_controlPoints d !! index.

#[global] Instance QSplineSeries_eq_dec : EqDecision QSplineSeries.
Proof. solve_decision. Defined.

(** *** The mutations of the point set *)

(** Modelled from the spec: the mutators of [QXYSeries] (append, insert,
    remove, replace, bulk replace) are not part of the sources at hand; only
    the signals they emit are named, in the constructor of [QSplineSeries].
    Each signal is paired with the change of the point list that the spec
    gives it. *)
Inductive Mutation :=
  | pointAdded (index : nat) (p : QPointF)
  | pointRemoved (index : nat)
  | pointReplaced (index : nat) (p : QPointF)
  | pointsReplaced (ps : list QPointF).

Definition mutate (m : Mutation) (ps : list QPointF) : list QPointF :=
  match m with
  | pointAdded index p => take index ps ++ p :: drop index ps
  | pointRemoved index => delete index ps
  | pointReplaced index p => <[index:=p]> ps
  | pointsReplaced ps' => ps'
  end.

(** The constructor of [QSplineSeries] connects the four signals to the
    slot [updateControlPoints]: the slot runs once the points have changed. *)
Definition on_mutation (m : Mutation) (d : QSplineSeries) : option QSplineSeries :=
  updateControlPoints (mkSeries (mutate m (points d)) (m_controlPoints d)).

(** The control points of a point list alone: those of a series that holds
    the list and has no control points yet. *)
Definition computeControlPoints (ps : list QPointF) : list QPointF :=
  match updateControlPoints (mkSeries ps []) with
  | Some d => m_controlPoints d
  | None => []
  end.

(** *** Quantities of the statements *)

(** Reading a vector with [0] out of range: the entries of a matrix-vector
    product that fall outside the matrix. *)
Definition el (v : list qreal) (i : nat) : qreal :=
  match v !! i with Some a => a | None => 0 end.

(** Row [i] of the product of a tridiagonal matrix with the vector [xs]:
    the diagonal is [diag], the two off-diagonals are [1]. *)
Definition tridiag_row (diag : nat → qreal) (xs : list qreal) (i : nat) : qreal :=
  (if decide (i = 0)%nat then 0 else el xs (i - 1)) + diag i * el xs i + el xs (i + 1).

Definition solves (diag : nat → qreal) (b xs : list qreal) : Prop :=
  length xs = length b ∧ ∀ i, (i < length b)%nat → tridiag_row diag xs i = el b i.

(** The diagonal [2, 4, ..., 4, last] of a system of [n] equations. *)
Definition diagonal (last : qreal) (n : nat) (i : nat) : qreal :=
  if decide (i = 0)%nat then lit 2
  else if decide (i < n - 1)%nat then lit 4 else last.

(** Coordinate [c] of point [i], [0] out of range. *)
Definition coord (c : QPointF → qreal) (ps : list QPointF) (i : nat) : qreal :=
  match ps !! i with Some p => c p | None => 0 end.

(** The right-hand side in the words of the spec, for the coordinate [c] of
    the points [ps]: [n] entries, [n] being the number of segments. *)
Definition rhs (c : QPointF → qreal) (ps : list QPointF) : list qreal :=
  let n := (length ps - 1)%nat in
  (λ i, if decide (i = 0)%nat then coord c ps 0 + lit 2 * coord c ps 1
        else if decide (i < n - 1)%nat then lit 4 * coord c ps i + lit 2 * coord c ps (i + 1)
        else (lit 8 * coord c ps (n - 1) + coord c ps n) / lit 2) <$> seq 0 n.

(** The first and second control points of the segments, read from the
    buffer: segment [i] owns the entries [2 * i] and [2 * i + 1]. *)
Definition cp1 (d : QSplineSeries) (i : nat) : option QPointF :=
  controlPoint d (2 * i).
Definition cp2 (d : QSplineSeries) (i : nat) : option QPointF :=
  controlPoint d (2 * i + 1).

(** The coordinate [c] of the first control points, one entry per segment. *)
Definition cp1s (c : QPointF → qreal) (d : QSplineSeries) : list qreal :=
  (λ i, default 0 (c <$> cp1 d i)) <$> seq 0 (length (m_controlPoints d) / 2).

(** The elimination in closed form.  [pivot count j] is the value of [b]
    after iteration [j] of the first loop, [coef count j] the value stored
    in [temp[j]], [fwd vector j] the value of [result[j]] after the first
    loop and [back vector m] the final value of [result[count - 1 - m]]. *)
Fixpoint pivot (count j : nat) : qreal :=
  match j with
  | O => lit 2.0
  | S j' => (if decide (j < count - 1)%nat then lit 4.0 else lit 3.5) - 1 / pivot count j'
  end.

Definition coef (count j : nat) : qreal :=
  match j with
  | O => 0
  | S j' => 1 / pivot count j'
  end.

Fixpoint fwd (vector : list qreal) (j : nat) : qreal :=
  match j with
  | O => el vector 0 / lit 2.0
  | S j' => (el vector j - fwd vector j') / pivot (length vector) j
  end.

Fixpoint back (vector : list qreal) (m : nat) : qreal :=
  let count := length vector in
  match m with
  | O => fwd vector (count - 1)
  | S m' => fwd vector (count - 1 - m) - coef count (count - 1 - m') * back vector m'
  end.

Definition thomas (vector : list qreal) : list qreal :=
  (λ j, back vector (length vector - 1 - j)) <$> seq 0 (length vector).

(** The relations that the back-substitution leaves between the entries of
    its result. *)
Definition substituted (vector xs : list qreal) : Prop :=
  let count := length vector in
  (∀ j, (S j < count)%nat → el xs j = fwd vector j - coef count (S j) * el xs (S j)) ∧
  el xs (count - 1) = fwd vector (count - 1).

(** The buffer in closed form.  [first_of] and [second_of] are the two
    control points that the last loop of [calculateControlPoints] writes for
    segment [i], from the solutions [xControl] and [yControl]; [pairs_of]
    lays them out, one pair per segment. *)
Definition first_of (xControl yControl : list qreal) (i : nat) : QPointF :=
  mkPoint (el xControl i) (el yControl i).

Definition second_of (ps : list QPointF) (xControl yControl : list qreal) (i : nat) : QPointF :=
  let n := (length ps - 1)%nat in
  if decide (i < n - 1)%nat then
    mkPoint (lit 2 * coord px ps (i + 1) - el xControl (i + 1))
            (lit 2 * coord py ps (i + 1) - el yControl (i + 1))
  else
    mkPoint ((coord px ps n + el xControl (n - 1)) / lit 2)
            ((coord py ps n + el yControl (n - 1)) / lit 2).

Definition pairs_of (ps : list QPointF) (xControl yControl : list qreal) : list QPointF :=
  i ← seq 0 (length ps - 1); [first_of xControl yControl i; second_of ps xControl yControl i].

Definition control_points (ps : list QPointF) : list QPointF :=
  if decide (length ps - 1 = 1)%nat then
    let c0 := mkPoint ((lit 2 * coord px ps 0 + coord px ps 1) / lit 3)
                      ((lit 2 * coord py ps 0 + coord py ps 1) / lit 3) in
    [c0; mkPoint (lit 2 * px c0 - coord px ps 0) (lit 2 * py c0 - coord py ps 0)]
  else pairs_of ps (thomas (rhs px ps)) (thomas (rhs py ps)).

(** The invariants of the loops.  For the two loops of [firstControlPoints],
    [forward_init] is the state on entry of the first loop, and [i] the
    next iteration. *)
Definition fill_inv (c : QPointF → qreal) (ps : list QPointF) (i : nat)
    (vector : list qreal) : Prop :=
  length vector = (length ps - 1)%nat ∧
  ∀ j, (j < i)%nat → vector !! j = rhs c ps !! j.

Definition pair_inv (ps : list QPointF) (xControl yControl : list qreal) (i : nat)
    (st : nat * list QPointF) : Prop :=
  let '(j, cps) := st in
  j = (2 * i)%nat ∧ length cps = (2 * (length ps - 1))%nat ∧
  ∀ m, (m < i)%nat →
    cps !! (2 * m)%nat = Some (first_of xControl yControl m) ∧
    cps !! (2 * m + 1)%nat = Some (second_of ps xControl yControl m).

Definition forward_init (vector : list qreal) : list qreal * list qreal * qreal :=
  let count := length vector in
  (<[0%nat:=el vector 0 / lit 2.0]> (resize count 0 []),
   <[0%nat:=0]> (resize count 0 []), lit 2.0).

Definition forward_inv (vector : list qreal) (i : nat)
    (st : list qreal * list qreal * qreal) : Prop :=
  let count := length vector in
  let '(result, temp, b) := st in
  length result = count ∧ length temp = count ∧ b = pivot count (i - 1) ∧
  (∀ j, (j < i)%nat → temp !! j = Some (coef count j)) ∧
  (∀ j, (j < i)%nat → result !! j = Some (fwd vector j)).

Definition backward_inv (vector : list qreal) (i : nat) (result : list qreal) : Prop :=
  let count := length vector in
  length result = count ∧
  (∀ j, (j < count - i)%nat → result !! j = Some (fwd vector j)) ∧
  (∀ j, (count - i ≤ j < count)%nat → result !! j = Some (back vector (count - 1 - j))).

(** *** Sample series *)

(** The two points and the three points that the spec uses as examples; the
    buffer of the second holds a stale entry. *)
Definition two_points : QSplineSeries :=
  mkSeries [mkPoint (lit 0) (lit 0); mkPoint (lit 3) (lit 9)] [].

Definition triangle : QSplineSeries :=
  mkSeries [mkPoint (lit 0) (lit 0); mkPoint (lit 1) (lit 2); mkPoint (lit 2) (lit 0)]
           [mkPoint (lit 7) (lit 7)].

End Spline.

(** ** Shapes of point sequences and of curves *)

Module Curve.

Local Open Scope Qc_scope.

(** The cubic Bezier segment from [p0] to [p1] with the control points [c1]
    and [c2] has the first derivative [3 (c1 - p0)] at its start and
    [3 (p1 - c2)] at its end, and the second derivative [6 (p0 - 2 c1 + c2)]
    at its start and [6 (c1 - 2 c2 + p1)] at its end.  [slope a b] is
    [b - a] and [bend a b c] is [a - 2 b + c]. *)
Definition slope (a b : QPointF) : QPointF :=
  mkPoint (px b - px a) (py b - py a).

Definition bend (a b c : QPointF) : QPointF :=
  mkPoint (px a - lit 2 * px b + px c) (py a - lit 2 * py b + py c).

(** A change of scale and origin on each axis. *)
Definition affine (sx tx sy ty : qreal) (p : QPointF) : QPointF :=
  mkPoint (sx * px p + tx) (sy * py p + ty).

(** The point [A + t D], and [m] points at equal steps [D] from [A]. *)
Definition along (A D : QPointF) (t : qreal) : QPointF :=
  mkPoint (px A + t * px D) (py A + t * py D).

Definition line_points (A D : QPointF) (m : nat) : list QPointF :=
  (λ i, along A D (of_int i)) <$> seq 0 m.

End Curve.

(** ** The pen of the theme (qsplineseries.cpp) *)

Module Theme.

(** [QList::at] with an [int] index: out of range is a failed assertion. *)
Definition at_ {A} (l : list A) (i : Z) : option A :=
  if decide (0 ≤ i)%Z then l !! Z.to_nat i else None.

(** [%] on [int]: the remainder of the division that truncates towards
    zero; a zero divisor is made a failure. *)
Definition remainder (a b : Z) : option Z :=
  if decide (b = 0)%Z then None else Some (Z.rem a b).

Section Theme.

(** [QColor], and the attributes of a [QPen] other than its colour and its
    width. *)
Variables QColor PenRest : Type.

Record QPen := mkPen { penColor : QColor; penWidthF : qreal; penRest : PenRest }.

Definition setColor (c : QColor) (pen : QPen) : QPen :=
  mkPen c (penWidthF pen) (penRest pen).
Definition setWidthF (w : qreal) (pen : QPen) : QPen :=
  mkPen (penColor pen) w (penRest pen).

Context `{EqDecision QColor} `{EqDecision PenRest}.

#[global] Instance QPen_eq_dec : EqDecision QPen.
Proof. solve_decision. Defined.

(** The default-constructed pen of [QPen pen;]. *)
Variable default_pen : QPen.

(** [QSplineSeriesPrivate::initializeTheme] for the colours [colors] of the
    theme and the pen [m_pen] of the series.  The result is the pen given to
    [setPen], if it is called. *)
Definition initializeTheme (index : Z) (colors : list QColor) (forced : bool)
    (m_pen : QPen) : option (option QPen) :=
  let pen := default_pen in
  if forced || bool_decide (pen = m_pen) then
    k ← remainder index (Z.of_nat (length colors));
    c ← at_ colors k;
    let pen := setColor c pen in
    let pen := setWidthF (lit 2) pen in
    Some (Some pen)
  else Some None.

End Theme.

End Theme.

(** ** The vertical axis (verticalaxis.cpp) *)

Module VerticalAxis.

Local Open Scope Qc_scope.

(** *** The scene *)

(** The graphics items that [updateGeometry] writes to, with the state it
    reads or writes. *)
Record QGraphicsLineItem := mkLineItem {
  line : QLineF;
  lineVisible : bool
}.

Record QGraphicsRectItem := mkRectItem {
  rect : QRectF.t;
  rectVisible : bool
}.

Record QGraphicsTextItem := mkTextItem {
  html : string;
  pos : QPointF;
  transformOriginPoint : QPointF;
  rotation : qreal;
  textVisible : bool
}.

Definition setLine (l : QLineF) (it : QGraphicsLineItem) : QGraphicsLineItem :=
  mkLineItem l (lineVisible it).
Definition setLineVisible (b : bool) (it : QGraphicsLineItem) : QGraphicsLineItem :=
  mkLineItem (line it) b.
Definition setRect (r : QRectF.t) (it : QGraphicsRectItem) : QGraphicsRectItem :=
  mkRectItem r (rectVisible it).
Definition setRectVisible (b : bool) (it : QGraphicsRectItem) : QGraphicsRectItem :=
  mkRectItem (rect it) b.
Definition setHtml (s : string) (it : QGraphicsTextItem) : QGraphicsTextItem :=
  mkTextItem s (pos it) (transformOriginPoint it) (rotation it) (textVisible it).
Definition setPos (a b : qreal) (it : QGraphicsTextItem) : QGraphicsTextItem :=
  mkTextItem (html it) (mkPoint a b) (transformOriginPoint it) (rotation it) (textVisible it).
Definition setTransformOriginPoint (p : QPointF) (it : QGraphicsTextItem) : QGraphicsTextItem :=
  mkTextItem (html it) (pos it) p (rotation it) (textVisible it).
Definition setRotation (a : qreal) (it : QGraphicsTextItem) : QGraphicsTextItem :=
  mkTextItem (html it) (pos it) (transformOriginPoint it) a (textVisible it).
Definition setVisible (b : bool) (it : QGraphicsTextItem) : QGraphicsTextItem :=
  mkTextItem (html it) (pos it) (transformOriginPoint it) (rotation it) b.

(** The items of the axis: [gridItems()], [labelItems()], [shadeItems()],
    [arrowItems()] and [titleItem()]. *)
Record Scene := mkScene {
  gridItems : list QGraphicsLineItem;
  labelItems : list QGraphicsTextItem;
  shadeItems : list QGraphicsRectItem;
  arrowItems : list QGraphicsLineItem;
  titleItem : QGraphicsTextItem
}.

#[global] Instance QGraphicsLineItem_eq_dec : EqDecision QGraphicsLineItem.
Proof. solve_decision. Defined.
#[global] Instance QGraphicsRectItem_eq_dec : EqDecision QGraphicsRectItem.
Proof. solve_decision. Defined.
#[global] Instance QGraphicsTextItem_eq_dec : EqDecision QGraphicsTextItem.
Proof. solve_decision. Defined.
#[global] Instance Scene_eq_dec : EqDecision Scene.
Proof. solve_decision. Defined.

(** *** What the axis reads *)

Inductive Alignment := AlignLeft | AlignRight | AlignTop | AlignBottom.

Inductive QFont := Font (family : string) (pointSize : nat).

(** The tick positions and labels, the two rectangles, and the properties
    of [axis()] that the layout reads. *)
Record Axis := mkAxis {
  layout : list qreal;
  labels : list string;
  axisGeometry : QRectF.t;
  gridGeometry : QRectF.t;
  alignment : Alignment;
  intervalAxis : bool;
  titleText : string;
  titleFont : QFont;
  labelsFont : QFont;
  labelsAngle : qreal;
  labelPadding : qreal;
  titlePadding : qreal
}.

(** The text services are not part of the sources at hand; the layout is
    defined for any of them. *)
Section Layout.

(** [ChartPresenter::truncatedText(font, text, angle, maxWidth, maxHeight,
    boundingRect)]: the text to show and the rectangle stored in
    [boundingRect]. *)
Variable truncatedText : QFont → string → qreal → qreal → qreal → string * QRectF.t.

(** [ChartPresenter::textBoundingRect(font, text)]. *)
Variable textBoundingRect : QFont → string → QRectF.t.

(** [QGraphicsTextItem::boundingRect()]. *)
Variable boundingRect : QGraphicsTextItem → QRectF.t.

Variable a : Axis.

(** The title block.  Returns the title item and the space left to the
    labels. *)
Definition title_block (title : QGraphicsTextItem) : QGraphicsTextItem * qreal :=
  let axisRect := axisGeometry a in
  let gridRect := gridGeometry a in
  let availableSpace := QRectF.width axisRect - labelPadding a in
  if negb (isEmpty (titleText a)) && textVisible title then
    let availableSpace := availableSpace - titlePadding a * lit 2.0 in
    let minimumLabelWidth := QRectF.width (textBoundingRect (labelsFont a) "...") in
    let titleSpace := availableSpace - minimumLabelWidth in
    let title :=
      setHtml (truncatedText (titleFont a) (titleText a) (lit 90.0) titleSpace
                 (QRectF.height gridRect)).1 title in
    let titleBoundingRect := boundingRect title in
    let center :=
      mkPoint (px (QRectF.center gridRect) - px (QRectF.center titleBoundingRect))
              (py (QRectF.center gridRect) - py (QRectF.center titleBoundingRect)) in
    let title :=
      match alignment a with
      | AlignLeft =>
          setPos (QRectF.left axisRect - QRectF.width titleBoundingRect / lit 2.0
                  + QRectF.height titleBoundingRect / lit 2.0 + titlePadding a)
                 (py center) title
      | AlignRight =>
          setPos (QRectF.right axisRect - QRectF.width titleBoundingRect / lit 2.0
                  - QRectF.height titleBoundingRect / lit 2.0 - titlePadding a)
                 (py center) title
      | _ => title
      end in
    let title := setTransformOriginPoint (QRectF.center titleBoundingRect) title in
    let title := setRotation (lit 270) title in
    (title, availableSpace - QRectF.height titleBoundingRect)
  else (title, availableSpace).

(** The blocks of the loop over the ticks, named after their comments in
    the source.  [y] is [layout[i]]. *)

(** "label text wrapping": the label item and the local [boundingRect]. *)
Definition label_text_wrapping (availableSpace : qreal) (text : string)
    (labelItem : QGraphicsTextItem) : QGraphicsTextItem * QRectF.t :=
  if isEmpty text then (setHtml text labelItem, QRectF.null)
  else
    let labelHeight :=
      QRectF.height (axisGeometry a) / of_int (length (layout a)) - lit 2 * labelPadding a in
    let r := truncatedText (labelsFont a) text (labelsAngle a) availableSpace labelHeight in
    (setHtml r.1 labelItem, r.2).

(** "ticks and label position". *)
Definition ticks_and_label_position (y : qreal) (rect bounding : QRectF.t)
    (center : QPointF) (labelItem : QGraphicsTextItem) (tickItem : QGraphicsLineItem)
    : QGraphicsTextItem * QGraphicsLineItem :=
  let axisRect := axisGeometry a in
  let widthDiff := QRectF.width rect - QRectF.width bounding in
  match alignment a with
  | AlignLeft =>
      (setPos (QRectF.right axisRect - QRectF.width rect + widthDiff / lit 2.0 - labelPadding a)
              (y - py center) labelItem,
       setLine (mkLine (QRectF.right axisRect - labelPadding a) y (QRectF.right axisRect) y)
               tickItem)
  | AlignRight =>
      (setPos (QRectF.left axisRect + labelPadding a - widthDiff / lit 2.0)
              (y - py center) labelItem,
       setLine (mkLine (QRectF.left axisRect) y (QRectF.left axisRect + labelPadding a) y)
               tickItem)
  | _ => (labelItem, tickItem)
  end.

(** "label in between": the flag [forceHide] and the label item. *)
Definition label_in_between (i : nat) (y : qreal) (bounding : QRectF.t)
    (center : QPointF) (labelItem : QGraphicsTextItem) : option (bool * QGraphicsTextItem) :=
  let gridRect := gridGeometry a in
  if intervalAxis a && bool_decide ((i + 1)%nat ≠ length (layout a)) then
    y' ← layout a !! (i + 1)%nat;
    let lowerBound := qMin y (QRectF.bottom gridRect) in
    let upperBound := qMax y' (QRectF.top gridRect) in
    let delta := lowerBound - upperBound in
    if bool_decide (delta < QRectF.height bounding)
       && (bool_decide (lowerBound = QRectF.bottom gridRect)
           || bool_decide (upperBound = QRectF.top gridRect))
       && negb (intervalAxis a)
    then Some (true, labelItem)
    else Some (false,
               setPos (px (pos labelItem)) (lowerBound - delta / lit 2.0 - py center) labelItem)
  else Some (false, labelItem).

(** "label overlap detection": the label item and the local [height]. *)
Definition label_overlap_detection (height : qreal) (forceHide : bool)
    (rect bounding : QRectF.t) (labelItem : QGraphicsTextItem) : QGraphicsTextItem * qreal :=
  let axisRect := axisGeometry a in
  let heightDiff := QRectF.height rect - QRectF.height bounding in
  if (bool_decide (height < py (pos labelItem) + QRectF.height bounding)
      || forceHide
      || bool_decide (QRectF.bottom axisRect < py (pos labelItem) + heightDiff / lit 2.0 - lit 1.0)
      || bool_decide (py (pos labelItem) + heightDiff / lit 2.0 < QRectF.top axisRect - lit 1.0))
     && negb (intervalAxis a)
  then (setVisible false labelItem, height)
  else (setVisible true labelItem, py (pos labelItem)).

(** "shades". *)
Definition shades_block (i : nat) (y : qreal) (shades : list QGraphicsRectItem)
    : option (list QGraphicsRectItem) :=
  let gridRect := gridGeometry a in
  if bool_decide (((i + 1) mod 2)%nat ≠ 0%nat) && bool_decide (1 < i)%nat then
    rectItem ← shades !! (i / 2 - 1)%nat;
    y' ← layout a !! (i - 1)%nat;
    let lowerBound := qMin y' (QRectF.bottom gridRect) in
    let upperBound := qMax y (QRectF.top gridRect) in
    let rectItem :=
      setRect (QRectF.mk (QRectF.left gridRect) upperBound (QRectF.width gridRect)
                 (lowerBound - upperBound)) rectItem in
    let rectItem :=
      if bool_decide (QRectF.height (rect rectItem) ≤ lit 0.0)
      then setRectVisible false rectItem
      else setRectVisible true rectItem in
    Some (<[(i / 2 - 1)%nat:=rectItem]> shades)
  else Some shades.

(** "check if the grid line and the axis tick should be shown". *)
Definition grid_and_tick_shown (gridItem tickItem : QGraphicsLineItem)
    : QGraphicsLineItem * QGraphicsLineItem :=
  let gridRect := gridGeometry a in
  let y := py (p1 (line gridItem)) in
  if bool_decide (y < QRectF.top gridRect) || bool_decide (QRectF.bottom gridRect < y)
  then (setLineVisible false gridItem, setLineVisible false tickItem)
  else (setLineVisible true gridItem, setLineVisible true tickItem).

(** The body of the loop over the ticks.  The state is the local [height]
    and the scene; [lines.at(i)], [arrow.at(i + 1)] and [labels.at(i)] are
    read on entry, and the three items are stored back on exit. *)
Definition tick_body (availableSpace : qreal) (i : nat) (st : qreal * Scene)
    : option (qreal * Scene) :=
  let '(height, sc) := st in
  let gridRect := gridGeometry a in
  gridItem ← gridItems sc !! i;
  tickItem ← arrowItems sc !! (i + 1)%nat;
  labelItem ← labelItems sc !! i;
  y ← layout a !! i;
  let gridItem :=
    setLine (mkLine (QRectF.left gridRect) y (QRectF.right gridRect) y) gridItem in
  text ← labels a !! i;
  let '(labelItem, bounding) := label_text_wrapping availableSpace text labelItem in
  let rect := boundingRect labelItem in
  let center := QRectF.center rect in
  let labelItem := setTransformOriginPoint (mkPoint (px center) (py center)) labelItem in
  let '(labelItem, tickItem) :=
    ticks_and_label_position y rect bounding center labelItem tickItem in
  '(forceHide, labelItem) ← label_in_between i y bounding center labelItem;
  let '(labelItem, height) :=
    label_overlap_detection height forceHide rect bounding labelItem in
  shades ← shades_block i y (shadeItems sc);
  let '(gridItem, tickItem) := grid_and_tick_shown gridItem tickItem in
  Some (height,
        mkScene (<[i:=gridItem]> (gridItems sc)) (<[i:=labelItem]> (labelItems sc))
                shades (<[(i + 1)%nat:=tickItem]> (arrowItems sc)) (titleItem sc)).

(** "begin/end grid line in case labels between". *)
Definition boundary_lines (lines : list QGraphicsLineItem) : option (list QGraphicsLineItem) :=
  let gridRect := gridGeometry a in
  let n := length (layout a) in
  if intervalAxis a then
    lines ← vupd (λ gridLine, setLineVisible true
               (setLine (mkLine (QRectF.left gridRect) (QRectF.top gridRect)
                                (QRectF.right gridRect) (QRectF.top gridRect)) gridLine))
             lines n;
    vupd (λ gridLine, setLineVisible true
            (setLine (mkLine (QRectF.left gridRect) (QRectF.bottom gridRect)
                             (QRectF.right gridRect) (QRectF.bottom gridRect)) gridLine))
         lines (n + 1)%nat
  else Some lines.

(** [VerticalAxis::updateGeometry].  A failed [Q_ASSERT] is [None]. *)
Definition updateGeometry (sc : Scene) : option Scene :=
  if bool_decide (layout a = []) then Some sc
  else
    if negb (bool_decide (length (labelItems sc) = length (labels a))
             && bool_decide (length (layout a) = length (labels a)))
    then None
    else
      let axisRect := axisGeometry a in
      let gridRect := gridGeometry a in
      let height := QRectF.bottom axisRect in
      arrowItem ← arrowItems sc !! 0%nat;
      let arrowItem :=
        match alignment a with
        | AlignLeft =>
            setLine (mkLine (QRectF.right axisRect) (QRectF.top gridRect)
                            (QRectF.right axisRect) (QRectF.bottom gridRect)) arrowItem
        | AlignRight =>
            setLine (mkLine (QRectF.left axisRect) (QRectF.top gridRect)
                            (QRectF.left axisRect) (QRectF.bottom gridRect)) arrowItem
        | _ => arrowItem
        end in
      let '(title, availableSpace) := title_block (titleItem sc) in
      let sc :=
        mkScene (gridItems sc) (labelItems sc) (shadeItems sc)
                (<[0%nat:=arrowItem]> (arrowItems sc)) title in
      '(_, sc) ← for_loop (tick_body availableSpace) 0 (length (layout a)) (height, sc);
      lines ← boundary_lines (gridItems sc);
      Some (mkScene lines (labelItems sc) (shadeItems sc) (arrowItems sc) (titleItem sc)).

(** *** Quantities of the statements *)

(** The scenes on which no [at] is out of range and no assertion fails:
    one label item per tick, a grid line per tick (two more on an interval
    axis), the arrow and a tick mark per tick, and a band for every second
    slot. *)
Definition well_formed (sc : Scene) : Prop :=
  let n := length (layout a) in
  length (labels a) = n ∧ length (labelItems sc) = n ∧
  (n + (if intervalAxis a then 2 else 0) ≤ length (gridItems sc))%nat ∧
  (n + 1 ≤ length (arrowItems sc))%nat ∧
  ((n - 1) / 2 ≤ length (shadeItems sc))%nat.

(** The space left to the labels by the title. *)
Definition available_space (sc : Scene) : qreal := (title_block (titleItem sc)).2.

(** The two rectangles of label [i] in an update of [sc]: the one of the
    item once its text is set ([rect] in the source) and the one reported by
    the truncation ([boundingRect] in the source, null for an empty text). *)
Definition label_metrics (sc : Scene) (i : nat) : option (QRectF.t * QRectF.t) :=
  labelItem ← labelItems sc !! i;
  text ← labels a !! i;
  let r := label_text_wrapping (available_space sc) text labelItem in
  Some (boundingRect r.1, r.2).

(** What one iteration makes of the label item, given the value of
    [height] on entry: the blocks of [tick_body] that touch it. *)
Definition label_pass (availableSpace : qreal) (i : nat) (y : qreal) (text : string)
    (height : qreal) (tickItem : QGraphicsLineItem) (labelItem : QGraphicsTextItem)
    : option (QGraphicsTextItem * qreal) :=
  let '(labelItem, bounding) := label_text_wrapping availableSpace text labelItem in
  let rect := boundingRect labelItem in
  let center := QRectF.center rect in
  let labelItem := setTransformOriginPoint (mkPoint (px center) (py center)) labelItem in
  let labelItem := (ticks_and_label_position y rect bounding center labelItem tickItem).1 in
  '(forceHide, labelItem) ← label_in_between i y bounding center labelItem;
  Some (label_overlap_detection height forceHide rect bounding labelItem).

(** The running threshold: the value of [height] on entry of iteration [k],
    read from the labels laid out so far. *)
Fixpoint threshold (done : list QGraphicsTextItem) (k : nat) : qreal :=
  match k with
  | O => QRectF.bottom (axisGeometry a)
  | S k' =>
      match done !! k' with
      | Some l => if textVisible l then py (pos l) else threshold done k'
      | None => threshold done k'
      end
  end.

(** The test of "label overlap detection" outside interval mode, for a
    label at [p] below the threshold [height]. *)
Definition hidden (height : qreal) (p : QPointF) (rect bounding : QRectF.t) : bool :=
  let heightDiff := QRectF.height rect - QRectF.height bounding in
  bool_decide (height < py p + QRectF.height bounding)
  || bool_decide (QRectF.bottom (axisGeometry a) < py p + heightDiff / lit 2.0 - lit 1.0)
  || bool_decide (py p + heightDiff / lit 2.0 < QRectF.top (axisGeometry a) - lit 1.0).

(** Labels [i < j] are adjacent visible labels of [ls]. *)
Definition adjacent_visible (ls : list QGraphicsTextItem) (i j : nat)
    (li lj : QGraphicsTextItem) : Prop :=
  (i < j)%nat ∧ ls !! i = Some li ∧ ls !! j = Some lj ∧
  textVisible li = true ∧ textVisible lj = true ∧
  ∀ k lk, (i < k < j)%nat → ls !! k = Some lk → textVisible lk = false.

(** The band that the "shades" block makes of [rectItem] between the tick
    positions [y'] (previous tick) and [y] (current tick). *)
Definition band (y' y : qreal) : QGraphicsRectItem :=
  let gridRect := gridGeometry a in
  let lowerBound := qMin y' (QRectF.bottom gridRect) in
  let upperBound := qMax y (QRectF.top gridRect) in
  mkRectItem (QRectF.mk (QRectF.left gridRect) upperBound (QRectF.width gridRect)
                (lowerBound - upperBound))
             (negb (bool_decide (lowerBound - upperBound ≤ lit 0.0))).

(** The number of bands of a layout of [n] ticks, and the visible ones among
    them. *)
Definition band_count (n : nat) : nat := ((n - 1) / 2)%nat.

Definition visible_bands (sc : Scene) : nat :=
  length (filter (λ r, rectVisible r = true) (take (band_count (length (layout a))) (shadeItems sc))).

(** The invariant of the loop over the ticks, on entry of iteration [k],
    for an update that entered the loop with the scene [sc0]. *)
Definition tick_inv (availableSpace : qreal) (sc0 : Scene) (k : nat) (st : qreal * Scene) : Prop :=
  let '(height, sc) := st in
  length (gridItems sc) = length (gridItems sc0) ∧
  length (labelItems sc) = length (labelItems sc0) ∧
  length (shadeItems sc) = length (shadeItems sc0) ∧
  length (arrowItems sc) = length (arrowItems sc0) ∧
  titleItem sc = titleItem sc0 ∧
  height = threshold (labelItems sc) k ∧
  (∀ m, (k ≤ m)%nat → labelItems sc !! m = labelItems sc0 !! m) ∧
  (∀ m, (k ≤ m)%nat → arrowItems sc !! (m + 1)%nat = arrowItems sc0 !! (m + 1)%nat) ∧
  (∀ m, (k ≤ m)%nat → gridItems sc !! m = gridItems sc0 !! m) ∧
  (∀ m, (m < k)%nat →
     ∃ l t y text l',
       labelItems sc0 !! m = Some l ∧ arrowItems sc0 !! (m + 1)%nat = Some t ∧
       layout a !! m = Some y ∧ labels a !! m = Some text ∧
       label_pass availableSpace m y text (threshold (labelItems sc) m) t l
         = Some (l', threshold (labelItems sc) (S m)) ∧
       labelItems sc !! m = Some l') ∧
  (∀ m, shadeItems sc !! m =
     if decide (2 * m + 2 < k)%nat then
       _ ← shadeItems sc0 !! m;
       y' ← layout a !! (2 * m + 1)%nat;
       y ← layout a !! (2 * m + 2)%nat;
       Some (band y' y)
     else shadeItems sc0 !! m).

End Layout.

(** Whether the tick positions decrease (the ticks go up the screen) and
    lie between the top and the bottom of the grid. *)
Fixpoint strictly_decreasing (l : list qreal) : bool :=
  match l with
  | y :: l' =>
      match l' with
      | y' :: _ => bool_decide (y' < y) && strictly_decreasing l'
      | [] => true
      end
  | [] => true
  end.

Fixpoint strictly_increasing (l : list qreal) : bool :=
  match l with
  | y :: l' =>
      match l' with
      | y' :: _ => bool_decide (y < y') && strictly_increasing l'
      | [] => true
      end
  | [] => true
  end.

Definition within_grid (a : Axis) : bool :=
  forallb (λ y, bool_decide (QRectF.top (gridGeometry a) ≤ y)
                && bool_decide (y ≤ QRectF.bottom (gridGeometry a))) (layout a).

(** *** Sample axes *)

(** Text services that give every text a box of 20 by 10. *)
Definition box : QRectF.t := QRectF.mk 0 0 (lit 20) (lit 10).
Definition sample_truncatedText (f : QFont) (text : string) (angle w h : qreal)
    : string * QRectF.t := (text, box).
Definition sample_textBoundingRect (f : QFont) (text : string) : QRectF.t := box.
Definition sample_boundingRect (it : QGraphicsTextItem) : QRectF.t := box.

(** An axis on the left of a grid that spans the pixels 0 to 100
    vertically, without title, with the tick positions [ys], one label "x"
    per tick and a label padding of 5. *)
Definition sample_axis (interval : bool) (ys : list qreal) : Axis :=
  mkAxis ys (replicate (length ys) "x")
         (QRectF.mk 0 0 (lit 40) (lit 100)) (QRectF.mk (lit 40) 0 (lit 200) (lit 100))
         AlignLeft interval EmptyString (Font "Sans" 10) (Font "Sans" 8) 0 (lit 5) (lit 3).

(** A scene with the items of [n] ticks, all hidden and at the origin. *)
Definition sample_scene (n : nat) : Scene :=
  let blank_line := mkLineItem (mkLine 0 0 0 0) false in
  let blank_text := mkTextItem EmptyString (mkPoint 0 0) (mkPoint 0 0) 0 false in
  mkScene (replicate (n + 2) blank_line) (replicate n blank_text)
          (replicate ((n - 1) / 2) (mkRectItem QRectF.null false))
          (replicate (n + 1) blank_line) blank_text.

Definition sample_update (interval : bool) (ys : list qreal) : option Scene :=
  updateGeometry sample_truncatedText sample_textBoundingRect sample_boundingRect
    (sample_axis interval ys) (sample_scene (length ys)).

End VerticalAxis.


(** ** The items of the axis after an update *)

Module AxisItems.
Import VerticalAxis.

Local Open Scope Qc_scope.

(** [QSizeF]. *)
Record QSizeF := mkSize { sizeWidth : qreal; sizeHeight : qreal }.

(** [Qt::SizeHint]. *)
Inductive SizeHint := MinimumSize | PreferredSize | MaximumSize | MinimumDescent | NSizeHints.

Section Layout.

Variable truncatedText : QFont → string → qreal → qreal → qreal → string * QRectF.t.
Variable textBoundingRect : QFont → string → QRectF.t.
Variable boundingRect : QGraphicsTextItem → QRectF.t.
Variable a : Axis.

(** [VerticalAxis::sizeHint], for the title item [title]; the constraint is
    unused. *)
Definition sizeHint (which : SizeHint) (title : QGraphicsTextItem) : QSizeF :=
  let sh := mkSize 0 0 in
  if isEmpty (titleText a) || negb (textVisible title) then sh
  else
    match which with
    | MinimumSize =>
        let titleRect := textBoundingRect (titleFont a) "..." in
        mkSize (QRectF.height titleRect + titlePadding a * lit 2.0) (QRectF.width titleRect)
    | MaximumSize | PreferredSize =>
        let titleRect := textBoundingRect (titleFont a) (titleText a) in
        mkSize (QRectF.height titleRect + titlePadding a * lit 2.0) (QRectF.width titleRect)
    | _ => sh
    end.

(** The local [titleBoundingRect] of the title block when the title is
    shown: the rectangle of the title item once its text is set. *)
Definition title_rect (sc : Scene) : QRectF.t :=
  let availableSpace :=
    QRectF.width (axisGeometry a) - labelPadding a - titlePadding a * lit 2.0 in
  let minimumLabelWidth := QRectF.width (textBoundingRect (labelsFont a) "...") in
  let titleSpace := availableSpace - minimumLabelWidth in
  boundingRect
    (setHtml (truncatedText (titleFont a) (titleText a) (lit 90.0) titleSpace
                (QRectF.height (gridGeometry a))).1 (titleItem sc)).

(** The test of "check if the grid line and the axis tick should be shown"
    for a line at the height [y]. *)
Definition shown (y : qreal) : bool :=
  negb (bool_decide (y < QRectF.top (gridGeometry a))
        || bool_decide (QRectF.bottom (gridGeometry a) < y)).

(** The grid line of a tick at [y] once the iteration is over. *)
Definition grid_line (y : qreal) : QGraphicsLineItem :=
  mkLineItem (mkLine (QRectF.left (gridGeometry a)) y (QRectF.right (gridGeometry a)) y)
             (shown y).

(** The tick mark [t] of a tick at [y] once the iteration is over. *)
Definition tick_mark (y : qreal) (t : QGraphicsLineItem) : QGraphicsLineItem :=
  mkLineItem
    match alignment a with
    | AlignLeft =>
        mkLine (QRectF.right (axisGeometry a) - labelPadding a) y (QRectF.right (axisGeometry a)) y
    | AlignRight =>
        mkLine (QRectF.left (axisGeometry a)) y (QRectF.left (axisGeometry a) + labelPadding a) y
    | _ => line t
    end
    (shown y).

(** The arrow item [t] after "arrow position". *)
Definition arrow_line (t : QGraphicsLineItem) : QGraphicsLineItem :=
  match alignment a with
  | AlignLeft =>
      setLine (mkLine (QRectF.right (axisGeometry a)) (QRectF.top (gridGeometry a))
                      (QRectF.right (axisGeometry a)) (QRectF.bottom (gridGeometry a))) t
  | AlignRight =>
      setLine (mkLine (QRectF.left (axisGeometry a)) (QRectF.top (gridGeometry a))
                      (QRectF.left (axisGeometry a)) (QRectF.bottom (gridGeometry a))) t
  | _ => t
  end.

(** The scene on entry of the loop over the ticks, [arrow0] being the arrow
    item of [sc]. *)
Definition entry_scene (sc : Scene) (arrow0 : QGraphicsLineItem) : Scene :=
  mkScene (gridItems sc) (labelItems sc) (shadeItems sc)
          (<[0%nat:=arrow_line arrow0]> (arrowItems sc))
          (title_block truncatedText textBoundingRect boundingRect a (titleItem sc)).1.

(** The invariant of the loop over the ticks for the lines, on entry of
    iteration [k], for an update that entered the loop with the scene
    [sc0]: the numbers of items are kept, the items read so far exist, the
    grid lines and tick marks of the ticks below [k] are laid out, and the
    other lines are those of [sc0]. *)
Definition frame_inv (sc0 : Scene) (k : nat) (st : qreal * Scene) : Prop :=
  let sc := st.2 in
  length (gridItems sc) = length (gridItems sc0) ∧
  length (labelItems sc) = length (labelItems sc0) ∧
  length (shadeItems sc) = length (shadeItems sc0) ∧
  length (arrowItems sc) = length (arrowItems sc0) ∧
  titleItem sc = titleItem sc0 ∧
  arrowItems sc !! 0%nat = arrowItems sc0 !! 0%nat ∧
  (k ≤ length (gridItems sc0))%nat ∧
  ((0 < k)%nat → (k + 1 ≤ length (arrowItems sc0))%nat) ∧
  ((k - 1) / 2 ≤ length (shadeItems sc0))%nat ∧
  (∀ m, (k ≤ m)%nat → gridItems sc !! m = gridItems sc0 !! m) ∧
  (∀ m, (k ≤ m)%nat → arrowItems sc !! (m + 1)%nat = arrowItems sc0 !! (m + 1)%nat) ∧
  (∀ m y, (m < k)%nat → layout a !! m = Some y →
     gridItems sc !! m = Some (grid_line y) ∧
     ∃ t, arrowItems sc0 !! (m + 1)%nat = Some t ∧
          arrowItems sc !! (m + 1)%nat = Some (tick_mark y t)).

End Layout.

(** *** A sample axis with a title *)

(** The sample axis with the title "Volts", and the sample scene with the
    title item shown. *)
Definition titled_axis (interval : bool) (ys : list qreal) : Axis :=
  let s := sample_axis interval ys in
  mkAxis (layout s) (labels s) (axisGeometry s) (gridGeometry s) (alignment s)
         (intervalAxis s) "Volts" (titleFont s) (labelsFont s) (labelsAngle s)
         (labelPadding s) (titlePadding s).

Definition titled_scene (n : nat) : Scene :=
  let s := sample_scene n in
  mkScene (gridItems s) (labelItems s) (shadeItems s) (arrowItems s)
          (setVisible true (titleItem s)).

End AxisItems.

(** * Properties *)

(** ** Arithmetic of [qreal] *)

Module Real.

Lemma this_plus (a b : qreal) : (this (a + b) == this a + this b)%Q.
Proof. apply Qred_correct. Qed.

Lemma this_mult (a b : qreal) : (this (a * b) == this a * this b)%Q.
Proof. apply Qred_correct. Qed.

Lemma this_opp (a : qreal) : (this (- a) == - this a)%Q.
Proof. apply Qred_correct. Qed.

Lemma this_minus (a b : qreal) : (this (a - b) == this a - this b)%Q.
Proof. unfold Qcminus. rewrite this_plus, this_opp. reflexivity. Qed.

Lemma this_inv (a : qreal) : (this (/ a) == / this a)%Q.
Proof. apply Qred_correct. Qed.

Lemma this_div (a b : qreal) : (this (a / b) == this a / this b)%Q.
Proof. unfold Qcdiv. rewrite this_mult, this_inv. reflexivity. Qed.

Lemma this_Q2Qc (q : Q) : (this (Q2Qc q) == q)%Q.
Proof. apply Qred_correct. Qed.

Lemma this_eq (a b : qreal) : a = b ↔ (this a == this b)%Q.
Proof. split; [intros ->; reflexivity | apply Qc_is_canon]. Qed.

End Real.

Create Rewrite HintDb qc_push.
#[global] Hint Rewrite Real.this_plus Real.this_minus Real.this_mult Real.this_div
  Real.this_inv Real.this_opp Real.this_Q2Qc : qc_push.

(** [qc2q] turns a goal on [qreal] into one on [Q], where [lra] and [field]
    apply; the numbers of the goal stay as atoms [this a], and the inverse of
    a literal is evaluated. *)
Ltac qc_inv_literals :=
  repeat match goal with
  | |- context [Qinv (Qmake ?a ?b)] =>
      let r := eval vm_compute in (Qinv (Qmake a b)) in
      change (Qinv (Qmake a b)) with r
  | H : context [Qinv (Qmake ?a ?b)] |- _ =>
      let r := eval vm_compute in (Qinv (Qmake a b)) in
      change (Qinv (Qmake a b)) with r in H
  end.

Ltac qc2q :=
  unfold lit, of_int in *;
  repeat match goal with
  | H : @eq Qc _ _ |- _ => apply Real.this_eq in H
  | H : not (@eq Qc _ _) |- _ => rewrite Real.this_eq in H
  | H : context [Qcle _ _] |- _ => unfold Qcle in H
  | H : context [Qclt _ _] |- _ => unfold Qclt in H
  | |- context [@eq Qc _ _] => rewrite Real.this_eq
  | |- context [Qcle _ _] => unfold Qcle
  | |- context [Qclt _ _] => unfold Qclt
  end;
  autorewrite with qc_push in *;
  unfold Qdiv in *; qc_inv_literals.

(** ** Vectors and loops *)

Lemma vput_Some {A} (v : list A) i a :
  i < length v → vput v i a = Some (<[i:=a]> v).
Proof.
  intros Hi. unfold vput. destruct (lookup_lt_is_Some_2 v i Hi) as [b ->]. done.
Qed.

Lemma vupd_Some {A} (f : A → A) (v : list A) i a :
  v !! i = Some a → vupd f v i = Some (<[i:=f a]> v).
Proof. intros Hi. unfold vupd. by rewrite Hi. Qed.

Lemma vupd_lt {A} (f : A → A) (v : list A) i :
  i < length v → ∃ v', vupd f v i = Some v' ∧ length v' = length v.
Proof.
  intros Hi. destruct (lookup_lt_is_Some_2 v i Hi) as [a Ha].
  exists (<[i:=f a]> v). split; [by apply vupd_Some | by rewrite length_insert].
Qed.

(** The invariant rule of [for_loop]: an invariant that holds on entry and
    is kept by every iteration holds on exit, and the loop does not fail. *)
Lemma for_loop_invariant {St} (Inv : nat → St → Prop) body lo k (s : St) :
  Inv lo s →
  (∀ i s, lo ≤ i < lo + k → Inv i s → ∃ s', body i s = Some s' ∧ Inv (S i) s') →
  ∃ s', for_loop body lo k s = Some s' ∧ Inv (lo + k) s'.
Proof.
  revert lo s. induction k as [|k IH]; intros lo s H0 Hstep; simpl.
  - exists s. by rewrite Nat.add_0_r.
  - destruct (Hstep lo s) as (s1 & -> & H1); [lia | done |]. simpl.
    destruct (IH (S lo) s1) as (s2 & -> & H2); [done | |].
    + intros i s' Hi. apply Hstep. lia.
    + exists s2. split; [done|]. by replace (lo + S k) with (S lo + k) by lia.
Qed.

(** ** The spline series *)

Module SplineProps.
Import Spline.

Local Open Scope Qc_scope.

(** *** The pivots of the elimination *)

Lemma pivot_step_bound (g b : qreal) :
  lit 3.5 ≤ g → lit 2 ≤ b → 0 < 1 / b ∧ 1 / b ≤ lit (1 # 2) ∧ lit 3 ≤ g - 1 / b.
Proof.
  intros Hg Hb. qc2q.
  assert (0 < / this b)%Q by (apply Qinv_lt_0_compat; lra).
  assert (/ this b <= 1 # 2)%Q by (apply Qle_shift_inv_r; lra).
  lra.
Qed.

Lemma pivot_ge_2 count j : lit 2 ≤ pivot count j.
Proof.
  induction j as [|j IH]; simpl.
  - qc2q; lra.
  - destruct (pivot_step_bound
      (if decide (S j < count - 1)%nat then lit 4.0 else lit 3.5) (pivot count j))
      as (_ & _ & H); [|done|].
    + destruct (decide _); qc2q; lra.
    + qc2q; lra.
Qed.

Lemma pivot_nonzero count j : pivot count j ≠ 0.
Proof. pose proof (pivot_ge_2 count j) as H. intros E. rewrite E in H. qc2q. lra. Qed.

Lemma divide_pivot a count j : divide a (pivot count j) = Some (a / pivot count j).
Proof. unfold divide. destruct (decide _) as [E|]; [|done]. by apply pivot_nonzero in E. Qed.

(** *** The two loops of [firstControlPoints] *)

Section Elimination.

Variable vector : list qreal.
Hypothesis nonempty : (0 < length vector)%nat.

Lemma forward_inv_init : forward_inv vector 1 (forward_init vector).
Proof.
  unfold forward_inv, forward_init. cbv zeta.
  rewrite !length_insert, !length_resize. repeat split; try done.
  - intros j Hj. assert (j = 0%nat) as -> by lia.
    rewrite list_lookup_insert_eq; [done | by rewrite length_resize].
  - intros j Hj. assert (j = 0%nat) as -> by lia.
    rewrite list_lookup_insert_eq; [done | by rewrite length_resize].
Qed.

Lemma forward_step_inv i st :
  (1 ≤ i < length vector)%nat → forward_inv vector i st →
  ∃ st', forward_step vector (length vector) i st = Some st' ∧ forward_inv vector (S i) st'.
Proof.
  intros Hi. destruct st as [[result temp] b]. unfold forward_inv. cbv zeta.
  set (count := length vector) in *.
  intros (Hr & Ht & -> & Htemp & Hres).
  destruct i as [|i]; [lia|].
  assert (is_Some (vector !! S i)) as [vi Hvi] by (apply lookup_lt_is_Some_2; fold count; lia).
  unfold forward_step.
  replace (S i - 1)%nat with i by lia.
  rewrite divide_pivot. cbn [mbind option_bind].
  rewrite vput_Some by lia. cbn [mbind option_bind].
  rewrite list_lookup_insert_eq by lia. cbn [mbind option_bind].
  rewrite Hvi. cbn [mbind option_bind].
  rewrite (Hres i) by lia. cbn [mbind option_bind].
  change ((if decide (S i < count - 1)%nat then lit 4.0 else lit 3.5) - 1 / pivot count i)
    with (pivot count (S i)).
  rewrite divide_pivot. cbn [mbind option_bind].
  rewrite vput_Some by lia. cbn [mbind option_bind].
  eexists; split; [done|]. cbv beta iota.
  rewrite !length_insert.
  replace (S (S i) - 1)%nat with (S i) by lia.
  repeat split; try done.
  - intros j Hj. destruct (decide (j = S i)) as [->|].
    + by rewrite list_lookup_insert_eq by lia.
    + rewrite list_lookup_insert_ne by done. apply Htemp. lia.
  - intros j Hj. destruct (decide (j = S i)) as [->|].
    + rewrite list_lookup_insert_eq by lia. simpl. unfold el. fold count. by rewrite Hvi.
    + rewrite list_lookup_insert_ne by done. apply Hres. lia.
Qed.

Lemma forward_loop k :
  (k ≤ length vector - 1)%nat →
  ∃ st, for_loop (forward_step vector (length vector)) 1 k (forward_init vector) = Some st ∧
        forward_inv vector (S k) st.
Proof.
  intros Hk.
  destruct (for_loop_invariant (forward_inv vector) (forward_step vector (length vector))
              1 k (forward_init vector))
    as (st & Hrun & Hinv); [apply forward_inv_init | | by exists st].
  intros i st Hi. apply forward_step_inv. lia.
Qed.

Lemma backward_step_inv temp i result :
  (1 ≤ i < length vector)%nat →
  (∀ j, (j < length vector)%nat → temp !! j = Some (coef (length vector) j)) →
  backward_inv vector i result →
  ∃ result', backward_step temp (length vector) i result = Some result' ∧
             backward_inv vector (S i) result'.
Proof.
  unfold backward_inv. cbv zeta.
  intros Hi Htemp (Hlen & Hlow & Hhigh). set (count := length vector) in *.
  unfold backward_step.
  rewrite (Hlow (count - i - 1)%nat) by lia. cbn [mbind option_bind].
  rewrite Htemp by lia. cbn [mbind option_bind].
  rewrite (Hhigh (count - i)%nat) by lia. cbn [mbind option_bind].
  rewrite vput_Some by lia.
  eexists; split; [done|]. rewrite length_insert.
  repeat split; try done.
  - intros j Hj. rewrite list_lookup_insert_ne by lia. apply Hlow. lia.
  - intros j Hj. destruct (decide (j = count - i - 1)%nat) as [->|].
    + rewrite list_lookup_insert_eq by lia. f_equal.
      replace (count - 1 - (count - i - 1))%nat with (S (i - 1)) by lia.
      cbn [back]. fold count.
      replace (count - 1 - S (i - 1))%nat with (count - i - 1)%nat by lia.
      replace (count - 1 - (i - 1))%nat with (count - i)%nat by lia.
      replace (count - 1 - (count - i))%nat with (i - 1)%nat by lia. done.
    + rewrite list_lookup_insert_ne by lia. apply Hhigh. lia.
Qed.

(** [firstControlPoints] does not fail, and computes [thomas]. *)
Lemma firstControlPoints_thomas : firstControlPoints vector = Some (thomas vector).
Proof.
  unfold firstControlPoints.
  assert (is_Some (vector !! 0%nat)) as [v0 Hv0] by (apply lookup_lt_is_Some_2; lia).
  rewrite Hv0. cbn [mbind option_bind].
  rewrite !vput_Some by (rewrite length_resize; lia). cbn [mbind option_bind].
  destruct (forward_loop (length vector - 1)) as ([[result temp] b] & Hrun & Hinv); [lia|].
  unfold forward_init, el in Hrun. rewrite Hv0 in Hrun.
  rewrite Hrun. cbn [mbind option_bind].
  unfold forward_inv in Hinv. cbv zeta in Hinv.
  destruct Hinv as (Hr & Ht & _ & Htemp & Hres).
  destruct (for_loop_invariant (backward_inv vector) (backward_step temp (length vector))
              1 (length vector - 1) result)
    as (final & -> & Hlen & _ & Hfinal).
  - repeat split; [done | |].
    + intros j Hj. apply Hres. lia.
    + intros j Hj. assert (j = (length vector - 1)%nat) as -> by lia.
      rewrite Hres by lia. by rewrite Nat.sub_diag.
  - intros i r Hi. apply backward_step_inv; [lia|]. intros j Hj. apply Htemp. lia.
  - f_equal. apply list_eq. intros j. unfold thomas.
    rewrite list_lookup_fmap. destruct (decide (j < length vector)%nat).
    + rewrite Hfinal by lia. by rewrite lookup_seq_lt.
    + rewrite lookup_ge_None_2 by lia. by rewrite lookup_seq_ge by lia.
Qed.

End Elimination.

(** *** The system solved by the elimination *)

Lemma length_thomas vector : length (thomas vector) = length vector.
Proof. unfold thomas. by rewrite length_fmap, length_seq. Qed.

Lemma el_thomas vector j :
  (j < length vector)%nat → el (thomas vector) j = back vector (length vector - 1 - j).
Proof.
  intros Hj. unfold el, thomas. rewrite list_lookup_fmap, lookup_seq_lt by done. done.
Qed.

Lemma el_ge (v : list qreal) j : (length v ≤ j)%nat → el v j = 0.
Proof. intros Hj. unfold el. by rewrite lookup_ge_None_2. Qed.

Lemma el_ext (v w : list qreal) :
  length v = length w → (∀ j, (j < length v)%nat → el v j = el w j) → v = w.
Proof.
  intros Hlen Hel. apply list_eq. intros j. destruct (decide (j < length v)%nat) as [Hj|Hj].
  - specialize (Hel j Hj). unfold el in Hel.
    destruct (lookup_lt_is_Some_2 v j Hj) as [a Ha].
    destruct (lookup_lt_is_Some_2 w j ltac:(lia)) as [b Hb].
    rewrite Ha, Hb in Hel |- *. by subst.
  - by rewrite !lookup_ge_None_2 by lia.
Qed.

Lemma thomas_last vector :
  (0 < length vector)%nat →
  el (thomas vector) (length vector - 1) = fwd vector (length vector - 1).
Proof.
  intros H. rewrite el_thomas by lia.
  by replace (length vector - 1 - (length vector - 1))%nat with 0%nat by lia.
Qed.

Lemma thomas_rec vector j :
  (S j < length vector)%nat →
  el (thomas vector) j =
    fwd vector j - coef (length vector) (S j) * el (thomas vector) (S j).
Proof.
  intros H. rewrite !el_thomas by lia.
  replace (length vector - 1 - j)%nat with (S (length vector - 1 - S j)) by lia.
  cbn [back]. do 2 f_equal; [f_equal; lia|]. f_equal. lia.
Qed.

(** The algebra of one row, in both directions. *)
Lemma first_row (x0 x1 v : qreal) :
  x0 = v / lit 2.0 - 1 / lit 2.0 * x1 ↔ 0 + lit 2 * x0 + x1 = v.
Proof. split; intros H; qc2q; lra. Qed.

Lemma lit_4 : lit 4.0 = lit 4.
Proof. by apply Qc_is_canon. Qed.

Lemma sub_mul_0 (a b : qreal) : a - b * 0 = a.
Proof. ring. Qed.

Lemma next_row (g q p d x xprev xnext v : qreal) :
  q ≠ 0 → p = g - 1 / q → p ≠ 0 → xprev = d - 1 / q * x →
  x = (v - d) / p - 1 / p * xnext ↔ xprev + g * x + xnext = v.
Proof.
  intros Hq -> Hp ->. split.
  - intros ->. qc2q. field. split; [done|]. 
    intros E. apply Hp. field_simplify_eq; [|done]. lra.
  - intros <-. qc2q. field. split; [done|].
    intros E. apply Hp. field_simplify_eq; [|done]. lra.
Qed.

Lemma thomas_substituted vector :
  (0 < length vector)%nat → substituted vector (thomas vector).
Proof. intros H. split; [intros j Hj; by apply thomas_rec | by apply thomas_last]. Qed.

Lemma substituted_unique vector xs :
  (0 < length vector)%nat → length xs = length vector →
  substituted vector xs → xs = thomas vector.
Proof.
  intros Hpos Hlen [Hrec Hlast]. apply el_ext; [by rewrite length_thomas|].
  assert (∀ m, (m < length vector)%nat →
    el xs (length vector - 1 - m) = back vector m) as Hback.
  { induction m as [|m IH]; intros Hm.
    - by rewrite Nat.sub_0_r.
    - rewrite Hrec by lia. cbn [back].
      replace (S (length vector - 1 - S m)) with (length vector - 1 - m)%nat by lia.
      rewrite IH by lia. done. }
  intros j Hj. rewrite el_thomas by lia. rewrite <-Hback by lia. f_equal. lia.
Qed.

Lemma row_0 vector xs :
  (1 < length vector)%nat →
  tridiag_row (diagonal (lit 3.5) (length vector)) xs 0 = el vector 0 ↔
  el xs 0 = fwd vector 0 - coef (length vector) 1 * el xs 1.
Proof.
  intros H. unfold tridiag_row, diagonal. rewrite !decide_True by done.
  simpl. symmetry. apply first_row.
Qed.

Lemma row_S vector xs j :
  (S j < length vector)%nat →
  el xs j = fwd vector j - coef (length vector) (S j) * el xs (S j) →
  tridiag_row (diagonal (lit 3.5) (length vector)) xs (S j) = el vector (S j) ↔
  el xs (S j) = fwd vector (S j) - coef (length vector) (S (S j)) * el xs (S (S j)).
Proof.
  intros Hj Hprev. unfold tridiag_row, diagonal. rewrite !decide_False by done.
  replace (S j - 1)%nat with j by lia. rewrite Nat.add_1_r. symmetry.
  cbn [fwd coef] in *.
  apply (next_row _ (pivot (length vector) j));
    [apply pivot_nonzero | | apply pivot_nonzero | done].
  cbn [pivot]. destruct (decide (S j < length vector - 1)%nat); by rewrite ?lit_4.
Qed.

(** The result of the elimination solves the system whose diagonal is
    [2, 4, ..., 4, 3.5], and nothing else does. *)
Lemma solves_iff_substituted vector xs :
  (0 < length vector)%nat → length xs = length vector →
  solves (diagonal (lit 3.5) (length vector)) vector xs ↔ substituted vector xs.
Proof.
  intros Hpos Hlen. unfold solves, substituted. cbv zeta. split.
  - intros [_ Hrows].
    assert (∀ j, (S j < length vector)%nat →
      el xs j = fwd vector j - coef (length vector) (S j) * el xs (S j)) as Hrec.
    { induction j as [|j IH]; intros Hj.
      - apply row_0; [lia|]. apply Hrows. lia.
      - apply row_S; [lia | apply IH; lia | apply Hrows; lia]. }
    split; [done|].
    destruct (decide (1 < length vector)%nat) as [H1|H1].
    + assert (∃ n, length vector = S (S n)) as [n E]
        by (exists (length vector - 2)%nat; lia).
      pose proof (proj1 (row_S vector xs n ltac:(lia) ltac:(apply Hrec; lia))
        (Hrows (S n) ltac:(lia))) as H.
      rewrite (el_ge xs (S (S n))) in H by lia. rewrite sub_mul_0 in H.
      replace (length vector - 1)%nat with (S n) by lia. done.
    + assert (length vector = 1%nat) as E by lia.
      specialize (Hrows 0%nat ltac:(lia)). revert Hrows.
      unfold tridiag_row, diagonal. rewrite !decide_True by done.
      rewrite (el_ge xs (0 + 1)) by lia. rewrite E. simpl. intros H. qc2q. lra.
  - intros [Hrec Hlast]. split; [done|]. intros i Hi. destruct i as [|i].
    + destruct (decide (1 < length vector)%nat) as [H1|H1].
      * apply row_0; [done|]. apply (Hrec 0%nat). lia.
      * assert (length vector = 1%nat) as E by lia. rewrite E in Hlast. simpl in Hlast.
        unfold tridiag_row, diagonal. rewrite !decide_True by done.
        rewrite (el_ge xs (0 + 1)) by lia. rewrite Hlast. simpl. qc2q. lra.
    + assert (el xs i = fwd vector i - coef (length vector) (S i) * el xs (S i)) as Hprev.
      { apply Hrec. lia. }
      apply row_S; [done | done |].
      destruct (decide (S (S i) < length vector)%nat) as [H1|H1].
      * apply Hrec. lia.
      * rewrite (el_ge xs (S (S i))) by lia. rewrite sub_mul_0.
        replace (S i) with (length vector - 1)%nat by lia. done.
Qed.

Lemma solves_iff_thomas vector xs :
  (0 < length vector)%nat →
  solves (diagonal (lit 3.5) (length vector)) vector xs ↔ xs = thomas vector.
Proof.
  intros Hpos. split.
  - intros H. assert (length xs = length vector) as Hlen by apply H.
    apply substituted_unique; [done..|]. by apply solves_iff_substituted.
  - intros ->. apply solves_iff_substituted; [done | apply length_thomas |].
    by apply thomas_substituted.
Qed.

(** *** The passes of [calculateControlPoints] *)

Lemma length_rhs c ps : length (rhs c ps) = (length ps - 1)%nat.
Proof. unfold rhs. by rewrite length_fmap, length_seq. Qed.

Lemma rhs_lookup c ps j :
  (j < length ps - 1)%nat →
  rhs c ps !! j = Some
    (if decide (j = 0)%nat then coord c ps 0 + lit 2 * coord c ps 1
     else if decide (j < length ps - 1 - 1)%nat
          then lit 4 * coord c ps j + lit 2 * coord c ps (j + 1)
          else (lit 8 * coord c ps (length ps - 1 - 1) + coord c ps (length ps - 1)) / lit 2).
Proof. intros Hj. unfold rhs. by rewrite list_lookup_fmap, lookup_seq_lt. Qed.

Lemma coord_lookup c ps i p : ps !! i = Some p → coord c ps i = c p.
Proof. intros H. unfold coord. by rewrite H. Qed.

Lemma lit_2 : lit 2.0 = lit 2.
Proof. by apply Qc_is_canon. Qed.

(** Filling [vector] does not fail and yields the right-hand side of the
    spec, whatever [vector] held before. *)
Lemma fill_vector_rhs c ps vector :
  (3 ≤ length ps)%nat → length vector = (length ps - 1)%nat →
  fill_vector c ps (length ps - 1) vector = Some (rhs c ps).
Proof.
  intros Hps Hvec. unfold fill_vector. set (n := (length ps - 1)%nat) in *.
  destruct (lookup_lt_is_Some_2 ps 0) as [p0 Hp0]; [lia|].
  destruct (lookup_lt_is_Some_2 ps 1) as [p1 Hp1]; [lia|].
  destruct (lookup_lt_is_Some_2 ps (n - 1)) as [pn1 Hpn1]; [lia|].
  destruct (lookup_lt_is_Some_2 ps n) as [pn Hpn]; [lia|].
  rewrite Hp0, Hp1. cbn [mbind option_bind].
  rewrite vput_Some by lia. cbn [mbind option_bind].
  match goal with |- context [for_loop ?body 1 ?k ?v] =>
    destruct (for_loop_invariant (fill_inv c ps) body 1 k v) as (vec & -> & Hlen & Hvals)
  end.
  - split; [by rewrite length_insert|]. intros j Hj. assert (j = 0%nat) as -> by lia.
    rewrite list_lookup_insert_eq by lia. rewrite rhs_lookup by (fold n; lia).
    rewrite decide_True by done. by rewrite (coord_lookup _ _ _ _ Hp0), (coord_lookup _ _ _ _ Hp1).
  - intros i v Hi [Hlen Hvals].
    destruct (lookup_lt_is_Some_2 ps i) as [pi Hpi]; [lia|].
    destruct (lookup_lt_is_Some_2 ps (i + 1)) as [pi1 Hpi1]; [lia|].
    rewrite Hpi, Hpi1. cbn [mbind option_bind]. rewrite vput_Some by lia.
    eexists; split; [done|]. split; [by rewrite length_insert|].
    intros j Hj. destruct (decide (j = i)) as [->|].
    + rewrite list_lookup_insert_eq by lia. rewrite rhs_lookup by (fold n; lia).
      rewrite decide_False by lia. rewrite decide_True by (fold n; lia).
      by rewrite (coord_lookup _ _ _ _ Hpi), (coord_lookup _ _ _ _ Hpi1).
    + rewrite list_lookup_insert_ne by done. apply Hvals. lia.
  - cbn [mbind option_bind]. rewrite Hpn1, Hpn. cbn [mbind option_bind].
    rewrite vput_Some by lia. f_equal. apply list_eq. intros j.
    destruct (decide (j < n - 1)%nat); [|destruct (decide (j = n - 1)%nat) as [->|]].
    + rewrite list_lookup_insert_ne by lia. apply Hvals. lia.
    + rewrite list_lookup_insert_eq by lia. rewrite rhs_lookup by (fold n; lia).
      rewrite decide_False by lia. rewrite decide_False by (fold n; lia). fold n.
      by rewrite (coord_lookup _ _ _ _ Hpn1), (coord_lookup _ _ _ _ Hpn), lit_2.
    + rewrite list_lookup_insert_ne by lia.
      rewrite !lookup_ge_None_2; [done | rewrite length_rhs; fold n; lia | lia].
Qed.

Lemma el_lookup (v : list qreal) i : (i < length v)%nat → v !! i = Some (el v i).
Proof. intros H. unfold el. by destruct (lookup_lt_is_Some_2 v i H) as [a ->]. Qed.

Lemma setY_setX a b p : setY b (setX a p) = mkPoint a b.
Proof. done. Qed.

(** One pair per segment: the entries [2 * i] and [2 * i + 1] of the layout. *)
Lemma pairs_lookup (f g : nat → QPointF) k n i :
  (i < n)%nat →
  ((j ← seq k n; [f j; g j]) : list QPointF) !! (2 * i)%nat = Some (f (k + i)%nat) ∧
  ((j ← seq k n; [f j; g j]) : list QPointF) !! (2 * i + 1)%nat = Some (g (k + i)%nat).
Proof.
  revert k i. induction n as [|n IH]; intros k i Hi; [lia|].
  cbn [seq mbind list_bind mjoin]. destruct i as [|i].
  - rewrite Nat.add_0_r. done.
  - replace (2 * S i)%nat with (S (S (2 * i))) by lia.
    replace (S (S (2 * i)) + 1)%nat with (S (S (2 * i + 1))) by lia.
    cbn [app lookup list_lookup]. replace (k + S i)%nat with (S k + i)%nat by lia.
    apply (IH (S k) i). lia.
Qed.

Lemma length_pairs (f g : nat → QPointF) k n :
  length ((j ← seq k n; [f j; g j]) : list QPointF) = (2 * n)%nat.
Proof.
  revert k. induction n as [|n IH]; intros k; [done|].
  cbn [seq mbind list_bind mjoin app length]. rewrite (IH (S k)). lia.
Qed.

Lemma pair_step_inv ps xControl yControl i st :
  length xControl = (length ps - 1)%nat → length yControl = (length ps - 1)%nat →
  (i < length ps - 1)%nat → pair_inv ps xControl yControl i st →
  ∃ st', pair_step ps (length ps - 1) xControl yControl i st = Some st' ∧
         pair_inv ps xControl yControl (S i) st'.
Proof.
  intros Hx Hy Hi. destruct st as [j cps]. intros (-> & Hlen & Hdone).
  set (n := (length ps - 1)%nat) in *.
  assert (pair_step ps n xControl yControl i ((2 * i)%nat, cps) =
    Some ((2 * i + 1 + 1)%nat,
          <[(2 * i + 1)%nat:=second_of ps xControl yControl i]>
            (<[(2 * i)%nat:=first_of xControl yControl i]> cps))) as ->.
  { unfold pair_step.
    rewrite (el_lookup xControl i) by lia. cbn [mbind option_bind].
    destruct (lookup_lt_is_Some_2 cps (2 * i)) as [p Hp]; [lia|].
    rewrite (vupd_Some _ _ _ _ Hp). cbn [mbind option_bind].
    rewrite (el_lookup yControl i) by lia. cbn [mbind option_bind].
    rewrite (vupd_Some _ _ _ (setX (el xControl i) p)) by (apply list_lookup_insert_eq; lia).
    cbn [mbind option_bind]. rewrite list_insert_insert_eq, setY_setX.
    fold (first_of xControl yControl i).
    set (cps' := <[(2 * i)%nat:=first_of xControl yControl i]> cps).
    assert (length cps' = (2 * n)%nat) as Hlen' by (unfold cps'; by rewrite length_insert).
    unfold second_of. fold n. destruct (decide (i < n - 1)%nat).
    - destruct (lookup_lt_is_Some_2 ps (i + 1)) as [q Hq]; [lia|].
      rewrite Hq. cbn [mbind option_bind].
      rewrite (el_lookup xControl (i + 1)) by lia. cbn [mbind option_bind].
      destruct (lookup_lt_is_Some_2 cps' (2 * i + 1)) as [p' Hp']; [lia|].
      rewrite (vupd_Some _ _ _ _ Hp'). cbn [mbind option_bind].
      rewrite (el_lookup yControl (i + 1)) by lia. cbn [mbind option_bind].
      rewrite (vupd_Some _ _ _ (setX (lit 2 * px q - el xControl (i + 1)) p'))
        by (apply list_lookup_insert_eq; lia).
      cbn [mbind option_bind]. rewrite list_insert_insert_eq, setY_setX.
      by rewrite !(coord_lookup _ _ _ _ Hq).
    - destruct (lookup_lt_is_Some_2 ps n) as [q Hq]; [lia|].
      rewrite Hq. cbn [mbind option_bind].
      rewrite (el_lookup xControl (n - 1)) by lia. cbn [mbind option_bind].
      destruct (lookup_lt_is_Some_2 cps' (2 * i + 1)) as [p' Hp']; [lia|].
      rewrite (vupd_Some _ _ _ _ Hp'). cbn [mbind option_bind].
      rewrite (el_lookup yControl (n - 1)) by lia. cbn [mbind option_bind].
      rewrite (vupd_Some _ _ _ (setX ((px q + el xControl (n - 1)) / lit 2) p'))
        by (apply list_lookup_insert_eq; lia).
      cbn [mbind option_bind]. rewrite list_insert_insert_eq, setY_setX.
      by rewrite !(coord_lookup _ _ _ _ Hq). }
  eexists; split; [done|]. split; [lia|]. split; [by rewrite !length_insert|].
  intros m Hm. destruct (decide (m = i)) as [->|].
  - split.
    + rewrite list_lookup_insert_ne by lia. apply list_lookup_insert_eq. lia.
    + apply list_lookup_insert_eq. rewrite length_insert. lia.
  - rewrite !list_lookup_insert_ne by lia. apply Hdone. lia.
Qed.

Lemma pair_loop ps xControl yControl cps :
  length xControl = (length ps - 1)%nat → length yControl = (length ps - 1)%nat →
  length cps = (2 * (length ps - 1))%nat →
  ∃ j, for_loop (pair_step ps (length ps - 1) xControl yControl) 0 (length ps - 1)
         (0%nat, cps) = Some (j, pairs_of ps xControl yControl).
Proof.
  intros Hx Hy Hlen.
  destruct (for_loop_invariant (pair_inv ps xControl yControl)
              (pair_step ps (length ps - 1) xControl yControl) 0 (length ps - 1) (0%nat, cps))
    as ([j final] & -> & _ & Hfinal & Hall).
  - split; [done|]. split; [done|]. intros m Hm. lia.
  - intros i st Hi. apply pair_step_inv; [done..|lia].
  - exists j. do 2 f_equal. apply list_eq. intros m.
    destruct (decide (m < 2 * (length ps - 1))%nat) as [Hm|Hm].
    + destruct (Nat.Even_or_Odd m) as [[i ->]|[i ->]].
      * destruct (Hall i) as [-> _]; [lia|].
        symmetry. apply (pairs_lookup _ _ 0). lia.
      * destruct (Hall i) as [_ ->]; [lia|].
        symmetry. apply (pairs_lookup _ _ 0). lia.
    + rewrite !lookup_ge_None_2; [done | | lia].
      unfold pairs_of. rewrite length_pairs. lia.
Qed.

(** *** The buffer in closed form *)

(** Two points: the closed form, whatever the solver and whatever the buffer
    held before. *)
Lemma update_two_points solver p0 p1 cps :
  updateControlPoints_with solver (mkSeries [p0; p1] cps) =
    Some (mkSeries [p0; p1] (control_points [p0; p1])).
Proof.
  unfold updateControlPoints_with. cbn [points m_controlPoints length].
  rewrite decide_True by lia.
  assert (length (resize (2 * 2 - 2) origin cps) = 2%nat) as Hlen by apply length_resize.
  destruct (resize (2 * 2 - 2) origin cps) as [|a [|b [|? ?]]]; try done.
Qed.

(** Three points or more: the pairs built from the two solutions. *)
Lemma update_general d :
  (3 ≤ length (points d))%nat →
  updateControlPoints d =
    Some (mkSeries (points d)
            (pairs_of (points d) (thomas (rhs px (points d))) (thomas (rhs py (points d))))).
Proof.
  intros Hps. unfold updateControlPoints, updateControlPoints_with.
  rewrite decide_True by lia.
  unfold calculateControlPoints_with. cbn [points m_controlPoints].
  rewrite decide_False by lia.
  rewrite fill_vector_rhs by (by rewrite ?length_resize).
  cbn [mbind option_bind].
  rewrite firstControlPoints_thomas by (rewrite length_rhs; lia).
  cbn [mbind option_bind].
  rewrite fill_vector_rhs by (by rewrite ?length_rhs).
  cbn [mbind option_bind].
  rewrite firstControlPoints_thomas by (rewrite length_rhs; lia).
  cbn [mbind option_bind].
  destruct (pair_loop (points d) (thomas (rhs px (points d))) (thomas (rhs py (points d)))
              (resize (2 * length (points d) - 2) origin (m_controlPoints d)))
    as [j ->]; [by rewrite length_thomas, length_rhs.. | rewrite length_resize; lia |].
  done.
Qed.

Lemma update_closed d :
  (2 ≤ length (points d))%nat →
  updateControlPoints d = Some (mkSeries (points d) (control_points (points d))).
Proof.
  intros Hps. destruct (decide (length (points d) = 2%nat)) as [E|E].
  - destruct d as [[|p0 [|p1 [|? ?]]] cps]; try done. apply update_two_points.
  - rewrite update_general by lia. unfold control_points. by rewrite decide_False by lia.
Qed.

(** With fewer than two points the slot leaves the series as it is. *)
Lemma update_short d :
  (length (points d) < 2)%nat → updateControlPoints d = Some d.
Proof.
  intros Hps. unfold updateControlPoints, updateControlPoints_with.
  by rewrite decide_False by lia.
Qed.

Lemma length_control_points ps :
  (2 ≤ length ps)%nat → length (control_points ps) = (2 * (length ps - 1))%nat.
Proof.
  intros Hps. unfold control_points. destruct (decide _) as [E|E].
  - simpl. lia.
  - apply length_pairs.
Qed.

Lemma computeControlPoints_closed ps :
  computeControlPoints ps = if decide (1 < length ps)%nat then control_points ps else [].
Proof.
  unfold computeControlPoints. destruct (decide _).
  - by rewrite update_closed by (simpl; lia).
  - by rewrite update_short by (simpl; lia).
Qed.

(** *** The first control points *)

Lemma cp1s_pairs_of ps xControl yControl :
  length xControl = (length ps - 1)%nat → length yControl = (length ps - 1)%nat →
  cp1s px (mkSeries ps (pairs_of ps xControl yControl)) = xControl ∧
  cp1s py (mkSeries ps (pairs_of ps xControl yControl)) = yControl.
Proof.
  intros Hx Hy. unfold cp1s, cp1, controlPoint. cbn [m_controlPoints].
  unfold pairs_of. rewrite length_pairs, (Nat.mul_comm 2), Nat.div_mul by done.
  split; apply list_eq; intros i; rewrite list_lookup_fmap.
  - destruct (decide (i < length ps - 1)%nat) as [Hi|Hi].
    + rewrite lookup_seq_lt by done. cbn [fmap option_fmap option_map]. rewrite Nat.add_0_l.
      destruct (pairs_lookup (first_of xControl yControl)
                  (second_of ps xControl yControl) 0 _ i Hi) as [-> _].
      simpl. symmetry. apply el_lookup. lia.
    + rewrite lookup_seq_ge by lia. by rewrite lookup_ge_None_2 by lia.
  - destruct (decide (i < length ps - 1)%nat) as [Hi|Hi].
    + rewrite lookup_seq_lt by done. cbn [fmap option_fmap option_map]. rewrite Nat.add_0_l.
      destruct (pairs_lookup (first_of xControl yControl)
                  (second_of ps xControl yControl) 0 _ i Hi) as [-> _].
      simpl. symmetry. apply el_lookup. lia.
    + rewrite lookup_seq_ge by lia. by rewrite lookup_ge_None_2 by lia.
Qed.




(** *** The size and the layout of the buffer *)

(** C2.  For a point sequence of length at least 2 the update succeeds and
    leaves a buffer of [2 * (length points - 1)] entries: segment [i] has
    its pair at the entries [2 * i] and [2 * i + 1] exactly when
    [i < length points - 1].  Every entry is written: the outcome is the
    same whatever the buffer held before. *)
Theorem control_point_count d :
  (2 ≤ length (points d))%nat →
  ∃ d', updateControlPoints d = Some d' ∧
    points d' = points d ∧
    length (m_controlPoints d') = (2 * (length (points d) - 1))%nat ∧
    (∀ i, is_Some (cp1 d' i) ↔ (i < length (points d) - 1)%nat) ∧
    (∀ i, is_Some (cp2 d' i) ↔ (i < length (points d) - 1)%nat) ∧
    (∀ stale, updateControlPoints (mkSeries (points d) stale) = Some d').
Proof.
  intros Hps. eexists. split; [by apply update_closed|].
  cbn [points m_controlPoints]. split; [done|].
  pose proof (length_control_points (points d) Hps) as Hlen.
  split; [done|]. unfold cp1, cp2, controlPoint. cbn [m_controlPoints].
  split; [|split].
  - intros i. rewrite lookup_lt_is_Some, Hlen. lia.
  - intros i. rewrite lookup_lt_is_Some, Hlen. lia.
  - intros stale. by rewrite update_closed.
Qed.

Lemma control_point_count_witness :
  ∃ d', updateControlPoints triangle = Some d' ∧
    points d' = points triangle ∧
    length (m_controlPoints d') = 4%nat ∧
    (∀ i, is_Some (cp1 d' i) ↔ (i < 2)%nat) ∧
    (∀ i, is_Some (cp2 d' i) ↔ (i < 2)%nat) ∧
    (∀ stale, updateControlPoints (mkSeries (points triangle) stale) = Some d').
Proof. apply (control_point_count triangle). simpl. lia. Defined.

(** C3.  For two points [p0] and [p1] the update stores the single pair
    [cp1 = (2 p0 + p1) / 3] and [cp2 = 2 cp1 - p0], coordinate by
    coordinate, whatever the solver is (a solver that fails included: it is
    not called) and whatever the buffer held before; for (0,0) and (3,9) the
    pair is (1,3) and (2,6). *)
Theorem two_points_closed_form :
  (∀ solver p0 p1 stale,
     updateControlPoints_with solver (mkSeries [p0; p1] stale) =
       Some (mkSeries [p0; p1]
         [mkPoint ((lit 2 * px p0 + px p1) / lit 3) ((lit 2 * py p0 + py p1) / lit 3);
          mkPoint (lit 2 * ((lit 2 * px p0 + px p1) / lit 3) - px p0)
                  (lit 2 * ((lit 2 * py p0 + py p1) / lit 3) - py p0)])) ∧
  updateControlPoints two_points =
    Some (mkSeries (points two_points)
            [mkPoint (lit 1) (lit 3); mkPoint (lit 2) (lit 6)]).
Proof.
  split.
  - intros solver p0 p1 stale. apply update_two_points.
  - apply (bool_decide_unpack _). by vm_compute.
Qed.

(** C4.  For a point sequence of length at least 3, with [n] segments, the
    second control point of segment [i] is [2 P (i + 1) - cp1 (i + 1)] for
    [i < n - 1], and that of the last segment is [(P n + cp1 (n - 1)) / 2],
    coordinate by coordinate. *)
Theorem second_control_points d :
  (3 ≤ length (points d))%nat →
  ∃ d', updateControlPoints d = Some d' ∧
    (∀ i, (i < length (points d) - 1 - 1)%nat →
       ∃ p c, points d !! (i + 1)%nat = Some p ∧ cp1 d' (i + 1) = Some c ∧
         cp2 d' i = Some (mkPoint (lit 2 * px p - px c) (lit 2 * py p - py c))) ∧
    (∃ p c, points d !! (length (points d) - 1)%nat = Some p ∧
       cp1 d' (length (points d) - 1 - 1) = Some c ∧
       cp2 d' (length (points d) - 1 - 1) =
         Some (mkPoint ((px p + px c) / lit 2) ((py p + py c) / lit 2))).
Proof.
  intros Hps. eexists. split; [by apply update_general|].
  unfold cp1, cp2, controlPoint. cbn [m_controlPoints].
  set (n := (length (points d) - 1)%nat).
  set (xC := thomas (rhs px (points d))). set (yC := thomas (rhs py (points d))).
  split.
  - intros i Hi.
    destruct (lookup_lt_is_Some_2 (points d) (i + 1)) as [p Hp]; [lia|].
    exists p, (first_of xC yC (i + 1)). split; [done|].
    destruct (pairs_lookup (first_of xC yC) (second_of (points d) xC yC) 0 n (i + 1))
      as [H1 _]; [lia|].
    destruct (pairs_lookup (first_of xC yC) (second_of (points d) xC yC) 0 n i)
      as [_ H2]; [lia|].
    split; [exact H1|]. unfold pairs_of. fold n. rewrite H2. f_equal.
    unfold second_of. fold n. rewrite decide_True by lia.
    by rewrite !(coord_lookup _ _ _ _ Hp).
  - destruct (lookup_lt_is_Some_2 (points d) n) as [p Hp]; [lia|].
    exists p, (first_of xC yC (n - 1)). split; [done|].
    destruct (pairs_lookup (first_of xC yC) (second_of (points d) xC yC) 0 n (n - 1))
      as [H1 H2]; [lia|].
    split; [exact H1|]. unfold pairs_of. fold n. rewrite H2. f_equal.
    unfold second_of. fold n. rewrite decide_False by lia.
    by rewrite !(coord_lookup _ _ _ _ Hp).
Qed.

Lemma second_control_points_witness :
  ∃ d', updateControlPoints triangle = Some d' ∧
    (∀ i, (i < 1)%nat →
       ∃ p c, points triangle !! (i + 1)%nat = Some p ∧ cp1 d' (i + 1) = Some c ∧
         cp2 d' i = Some (mkPoint (lit 2 * px p - px c) (lit 2 * py p - py c))) ∧
    (∃ p c, points triangle !! 2%nat = Some p ∧ cp1 d' 1 = Some c ∧
       cp2 d' 1 = Some (mkPoint ((px p + px c) / lit 2) ((py p + py c) / lit 2))).
Proof. apply (second_control_points triangle). simpl. lia. Defined.

(** *** Mutations *)

(** C8 (as amended).  After a mutation the slot does not fail.  When the
    series is left with at least two points, the stored control points are
    replaced by the complete recomputation from the current points; when it
    is left with fewer than two, they are kept as they were. *)
Theorem mutation_recomputes m d :
  on_mutation m d =
    Some (mkSeries (mutate m (points d))
            (if decide (1 < length (mutate m (points d)))%nat
             then computeControlPoints (mutate m (points d))
             else m_controlPoints d)).
Proof.
  unfold on_mutation. rewrite computeControlPoints_closed.
  destruct (decide _).
  - by rewrite update_closed by (simpl; lia).
  - by rewrite update_short by (simpl; lia).
Qed.

(** C8 (as stated) fails: removing a point of [two_points] once its control
    points are in place leaves one point and the two control points, while
    the recomputation from one point has none. *)
Lemma mutation_keeps_stale_control_points :
  ¬ ∀ m d, ∃ d', on_mutation m d = Some d' ∧
      m_controlPoints d' = computeControlPoints (points d').
Proof.
  intros H.
  destruct (H (pointRemoved 0)
              (mkSeries (points two_points)
                 [mkPoint (lit 1) (lit 3); mkPoint (lit 2) (lit 6)]))
    as (d' & Hrun & Hcps).
  vm_compute in Hrun. injection Hrun as <-.
  vm_compute in Hcps. discriminate Hcps.
Qed.

(** *** The pivots *)

(** C10.  For a vector of length at least 1, [firstControlPoints] returns a
    result, of the length of the vector: no division by zero occurs.  The
    pivot [b] is 2 on entry of the first loop; after iteration [k] of the
    loop it is 4 (3.5 in the last iteration) minus the reciprocal stored in
    [temp[k]], which lies in (0, 1/2], and is at least 3. *)
Theorem pivots_never_vanish vector :
  (1 ≤ length vector)%nat →
  (∃ result, firstControlPoints vector = Some result ∧ length result = length vector) ∧
  ∀ k, (k ≤ length vector - 1)%nat →
    ∃ result temp b,
      for_loop (forward_step vector (length vector)) 1 k (forward_init vector)
        = Some (result, temp, b) ∧
      (k = 0%nat → b = lit 2) ∧
      ((1 ≤ k)%nat → ∃ t, temp !! k = Some t ∧ 0 < t ∧ t ≤ lit (1 # 2) ∧
         b = (if decide (k < length vector - 1)%nat then lit 4.0 else lit 3.5) - t ∧
         lit 3 ≤ b).
Proof.
  intros Hlen. split.
  - exists (thomas vector). split; [by apply firstControlPoints_thomas | apply length_thomas].
  - intros k Hk. destruct (forward_loop vector Hlen k Hk) as ([[result temp] b] & Hrun & Hinv).
    exists result, temp, b. split; [done|].
    destruct Hinv as (_ & _ & -> & Htemp & _). rewrite Nat.sub_succ, Nat.sub_0_r. split.
    + intros ->. apply lit_2.
    + intros Hk1. destruct k as [|k]; [lia|].
      exists (coef (length vector) (S k)). split; [apply Htemp; lia|].
      cbn [coef pivot].
      destruct (pivot_step_bound
        (if decide (S k < length vector - 1)%nat then lit 4.0 else lit 3.5)
        (pivot (length vector) k)) as (H1 & H2 & H3);
        [destruct (decide _); qc2q; lra | apply pivot_ge_2 | done].
Qed.

Lemma pivots_never_vanish_witness :
  (∃ result, firstControlPoints [lit 2; lit 5; lit 1] = Some result ∧
             length result = 3%nat) ∧
  ∀ k, (k ≤ 2)%nat →
    ∃ result temp b,
      for_loop (forward_step [lit 2; lit 5; lit 1] 3) 1 k (forward_init [lit 2; lit 5; lit 1])
        = Some (result, temp, b) ∧
      (k = 0%nat → b = lit 2) ∧
      ((1 ≤ k)%nat → ∃ t, temp !! k = Some t ∧ 0 < t ∧ t ≤ lit (1 # 2) ∧
         b = (if decide (k < 2)%nat then lit 4.0 else lit 3.5) - t ∧
         lit 3 ≤ b).
Proof. apply (pivots_never_vanish [lit 2; lit 5; lit 1]). simpl. lia. Defined.

End SplineProps.

(** ** The vertical axis *)

Module VerticalAxisProps.
Import VerticalAxis.

Local Open Scope Qc_scope.

Ltac Zify.zify_post_hook ::= Z.to_euclidean_division_equations.

Section Layout.

Context (truncatedText : QFont → string → qreal → qreal → qreal → string * QRectF.t).
Context (textBoundingRect : QFont → string → QRectF.t).
Context (boundingRect : QGraphicsTextItem → QRectF.t).
Context (a : Axis).

Local Abbreviation tick_body := (tick_body truncatedText boundingRect a).
Local Abbreviation label_pass := (label_pass truncatedText boundingRect a).
Local Abbreviation updateGeometry := (updateGeometry truncatedText textBoundingRect boundingRect a).
Local Abbreviation tick_inv := (tick_inv truncatedText boundingRect a).
Local Abbreviation label_metrics :=
  (label_metrics truncatedText textBoundingRect boundingRect a).
Local Abbreviation available_space :=
  (available_space truncatedText textBoundingRect boundingRect a).

Lemma lit_0 : lit 0.0 = 0.
Proof. by apply Qc_is_canon. Qed.

(** *** The blocks of the loop *)

Lemma label_in_between_Some i y bounding center labelItem :
  (i < length (layout a))%nat →
  ∃ forceHide labelItem',
    label_in_between a i y bounding center labelItem = Some (forceHide, labelItem').
Proof.
  intros Hi. unfold label_in_between.
  destruct (intervalAxis a); cbn [andb]; [|by eauto].
  destruct (bool_decide_reflect ((i + 1)%nat ≠ length (layout a))) as [Hne|_]; [|by eauto].
  destruct (lookup_lt_is_Some_2 (layout a) (i + 1)) as [y' ->]; [lia|].
  cbn [mbind option_bind]. rewrite andb_false_r. by eauto.
Qed.

Lemma overlap_height height forceHide rect bounding labelItem l' h' :
  label_overlap_detection a height forceHide rect bounding labelItem = (l', h') →
  pos l' = pos labelItem ∧
  h' = (if textVisible l' then py (pos l') else height).
Proof.
  unfold label_overlap_detection. destruct (_ && _); intros [= <- <-]; done.
Qed.

(** The "shades" block writes band [m] at the tick [2 * m + 2], and nothing
    at the other ticks. *)
Lemma shades_block_even m y' y r shades :
  layout a !! (2 * m + 1)%nat = Some y' → shades !! m = Some r →
  shades_block a (2 * m + 2) y shades = Some (<[m:=band a y' y]> shades).
Proof.
  intros Hy' Hr. unfold shades_block.
  rewrite bool_decide_true by lia. rewrite bool_decide_true by lia. cbn [andb].
  replace ((2 * m + 2) / 2 - 1)%nat with m by lia.
  replace (2 * m + 2 - 1)%nat with (2 * m + 1)%nat by lia.
  rewrite Hr, Hy'. cbn [mbind option_bind]. do 2 f_equal.
  unfold band, setRect, setRectVisible. cbn [rect QRectF.height QRectF.h].
  by destruct (bool_decide _).
Qed.

Lemma shades_block_other i y shades :
  (∀ m, i ≠ (2 * m + 2)%nat) → shades_block a i y shades = Some shades.
Proof.
  intros Hi. unfold shades_block.
  destruct (bool_decide_reflect (((i + 1) mod 2)%nat ≠ 0%nat)) as [H1|H1]; [|done].
  destruct (bool_decide_reflect (1 < i)%nat) as [H2|H2]; [|done].
  destruct (Hi (i / 2 - 1)%nat). lia.
Qed.

Lemma threshold_insert (ls : list QGraphicsTextItem) i l k :
  (k ≤ i)%nat → threshold a (<[i:=l]> ls) k = threshold a ls k.
Proof.
  induction k as [|k IH]; intros Hk; [done|]. cbn [threshold].
  rewrite list_lookup_insert_ne by lia. rewrite IH by lia. done.
Qed.

(** One iteration, item by item: the label item goes through [label_pass],
    the bands through the "shades" block, and the grid line, the tick mark
    and the label of tick [i] are the only other items stored. *)
Lemma tick_body_run availableSpace i height sc :
  (i < length (layout a))%nat → length (labels a) = length (layout a) →
  (i < length (labelItems sc))%nat → (i < length (gridItems sc))%nat →
  (i + 1 < length (arrowItems sc))%nat →
  (∀ m, i = (2 * m + 2)%nat → (m < length (shadeItems sc))%nat) →
  ∃ l t y text l' h' g' t' shades',
    labelItems sc !! i = Some l ∧ arrowItems sc !! (i + 1)%nat = Some t ∧
    layout a !! i = Some y ∧ labels a !! i = Some text ∧
    label_pass availableSpace i y text height t l = Some (l', h') ∧
    shades_block a i y (shadeItems sc) = Some shades' ∧
    length shades' = length (shadeItems sc) ∧
    tick_body availableSpace i (height, sc) =
      Some (h', mkScene (<[i:=g']> (gridItems sc)) (<[i:=l']> (labelItems sc)) shades'
                  (<[(i + 1)%nat:=t']> (arrowItems sc)) (titleItem sc)).
Proof.
  intros Hi Hlabels Hl Hg Ht Hs.
  destruct (lookup_lt_is_Some_2 (labelItems sc) i Hl) as [l El].
  destruct (lookup_lt_is_Some_2 (gridItems sc) i Hg) as [g Eg].
  destruct (lookup_lt_is_Some_2 (arrowItems sc) (i + 1) Ht) as [t Et].
  destruct (lookup_lt_is_Some_2 (layout a) i Hi) as [y Ey].
  destruct (lookup_lt_is_Some_2 (labels a) i) as [text Etext]; [lia|].
  assert (∃ shades', shades_block a i y (shadeItems sc) = Some shades' ∧
                     length shades' = length (shadeItems sc)) as (shades' & Eshades & Hlen).
  { destruct (decide (((i + 1) mod 2)%nat ≠ 0%nat ∧ (1 < i)%nat)) as [[H1 H2]|Hno].
    - assert (i = (2 * (i / 2 - 1) + 2)%nat) as E by lia.
      destruct (lookup_lt_is_Some_2 (shadeItems sc) (i / 2 - 1)) as [r Er]; [by apply Hs|].
      destruct (lookup_lt_is_Some_2 (layout a) (2 * (i / 2 - 1) + 1)) as [y' Ey']; [lia|].
      exists (<[(i / 2 - 1)%nat:=band a y' y]> (shadeItems sc)).
      split; [|by rewrite length_insert].
      pose proof (shades_block_even _ y' y r (shadeItems sc) Ey' Er) as H.
      by rewrite <-E in H.
    - exists (shadeItems sc). split; [|done]. apply shades_block_other. intros m ->.
      apply Hno. lia. }
  assert (∃ l' h' g' t',
    label_pass availableSpace i y text height t l = Some (l', h') ∧
    tick_body availableSpace i (height, sc) =
      Some (h', mkScene (<[i:=g']> (gridItems sc)) (<[i:=l']> (labelItems sc)) shades'
                  (<[(i + 1)%nat:=t']> (arrowItems sc)) (titleItem sc)))
    as (l' & h' & g' & t' & Hpass & Hrun).
  { unfold tick_body, VerticalAxis.label_pass.
    rewrite Eg, Et, El, Ey, Etext. cbn [mbind option_bind].
    destruct (label_text_wrapping truncatedText a availableSpace text l) as [l1 bounding].
    set (rect := boundingRect l1).
    set (l2 := setTransformOriginPoint _ l1).
    destruct (ticks_and_label_position a y rect bounding (QRectF.center rect) l2 t)
      as [l3 t3] eqn:Epos.
    cbn [fst].
    destruct (label_in_between_Some i y bounding (QRectF.center rect) l3 Hi)
      as (forceHide & l4 & ->).
    cbn [mbind option_bind].
    destruct (label_overlap_detection a height forceHide rect bounding l4) as [l5 h5].
    rewrite Eshades. cbn [mbind option_bind].
    destruct (grid_and_tick_shown a _ t3) as [g' t'].
    by exists l5, h5, g', t'. }
  by exists l, t, y, text, l', h', g', t', shades'.
Qed.

Lemma label_pass_height availableSpace i y text height t l l' h' :
  label_pass availableSpace i y text height t l = Some (l', h') →
  h' = (if textVisible l' then py (pos l') else height).
Proof.
  unfold VerticalAxis.label_pass.
  destruct (label_text_wrapping _ _ _ _ _) as [l1 bounding].
  destruct (label_in_between _ _ _ _ _ _) as [[forceHide l4]|]; [|done].
  cbn [mbind option_bind]. intros [= E]. by apply overlap_height in E as [_ ->].
Qed.

(** *** The invariant of the loop *)

Lemma tick_inv_step availableSpace sc0 k st :
  length (labels a) = length (layout a) →
  length (labelItems sc0) = length (layout a) →
  (length (layout a) ≤ length (gridItems sc0))%nat →
  (length (layout a) + 1 ≤ length (arrowItems sc0))%nat →
  ((length (layout a) - 1) / 2 ≤ length (shadeItems sc0))%nat →
  (k < length (layout a))%nat →
  tick_inv availableSpace sc0 k st →
  ∃ st', tick_body availableSpace k st = Some st' ∧ tick_inv availableSpace sc0 (S k) st'.
Proof.
  intros Hlabels Hn Hgn Han Hsn Hk. destruct st as [h sc].
  intros (Hg & Hl & Hs & Har & Ht & Hh & Hlab & Harr & Hgrid & Hdone & Hshades).
  destruct (tick_body_run availableSpace k h sc)
    as (l & t & y & text & l' & h' & g' & t' & shades' &
        El & Et & Ey & Etext & Hpass & Hsh & Hshlen & Hrun); [lia..| |].
  { intros m ->. lia. }
  exists (h', mkScene (<[k:=g']> (gridItems sc)) (<[k:=l']> (labelItems sc)) shades'
                 (<[(k + 1)%nat:=t']> (arrowItems sc)) (titleItem sc)).
  split; [done|].
  assert (h' = threshold a (<[k:=l']> (labelItems sc)) (S k)) as Hh'.
  { cbn [threshold]. rewrite list_lookup_insert_eq by lia.
    rewrite threshold_insert by lia. rewrite <-Hh. by eapply label_pass_height. }
  unfold VerticalAxis.tick_inv. cbn [gridItems labelItems shadeItems arrowItems titleItem].
  rewrite !length_insert.
  split; [done|]. split; [done|]. split; [lia|]. split; [done|]. split; [done|].
  split; [done|]. split; [|split; [|split; [|split]]].
  - intros m Hm. rewrite list_lookup_insert_ne by lia. apply Hlab. lia.
  - intros m Hm. rewrite list_lookup_insert_ne by lia. apply Harr. lia.
  - intros m Hm. rewrite list_lookup_insert_ne by lia. apply Hgrid. lia.
  - intros m Hm. destruct (decide (m = k)) as [->|Hne].
    + exists l, t, y, text, l'. rewrite <-Hlab, <-Harr by lia.
      rewrite threshold_insert by lia. rewrite <-Hh, <-Hh'.
      rewrite list_lookup_insert_eq by lia. done.
    + destruct (Hdone m) as (lm & tm & ym & textm & lm' & ? & ? & ? & ? & Hp & ?); [lia|].
      exists lm, tm, ym, textm, lm'. rewrite !threshold_insert by lia.
      rewrite list_lookup_insert_ne by lia. done.
  - intros m. destruct (decide (((k + 1) mod 2)%nat ≠ 0%nat ∧ (1 < k)%nat)) as [[H1 H2]|Hno].
    + assert (k = (2 * (k / 2 - 1) + 2)%nat) as E by lia.
      set (m0 := (k / 2 - 1)%nat) in *.
      destruct (lookup_lt_is_Some_2 (shadeItems sc) m0) as [r Er]; [lia|].
      destruct (lookup_lt_is_Some_2 (layout a) (2 * m0 + 1)) as [y' Ey']; [lia|].
      pose proof (shades_block_even _ y' y r (shadeItems sc) Ey' Er) as Hb.
      rewrite <-E, Hsh in Hb. injection Hb as ->.
      destruct (decide (m = m0)) as [->|Hm].
      * rewrite list_lookup_insert_eq by lia. rewrite decide_True by lia.
        pose proof (Hshades m0) as H0. rewrite decide_False, Er in H0 by lia.
        rewrite <-H0, Ey', <-E, Ey. done.
      * rewrite list_lookup_insert_ne by done. rewrite Hshades.
        destruct (decide (2 * m + 2 < k)%nat), (decide (2 * m + 2 < S k)%nat); try done; lia.
    + rewrite shades_block_other in Hsh by (intros m1 ->; apply Hno; lia).
      injection Hsh as <-. rewrite Hshades.
      destruct (decide (2 * m + 2 < k)%nat), (decide (2 * m + 2 < S k)%nat); try done; lia.
Qed.

Lemma tick_inv_init availableSpace sc0 :
  tick_inv availableSpace sc0 0 (QRectF.bottom (axisGeometry a), sc0).
Proof.
  unfold VerticalAxis.tick_inv.
  repeat split; try done; intros m; first [lia | by rewrite decide_False by lia].
Qed.

Lemma tick_loop availableSpace sc0 :
  length (labels a) = length (layout a) →
  length (labelItems sc0) = length (layout a) →
  (length (layout a) ≤ length (gridItems sc0))%nat →
  (length (layout a) + 1 ≤ length (arrowItems sc0))%nat →
  ((length (layout a) - 1) / 2 ≤ length (shadeItems sc0))%nat →
  ∃ st, for_loop (tick_body availableSpace) 0 (length (layout a))
          (QRectF.bottom (axisGeometry a), sc0) = Some st ∧
        tick_inv availableSpace sc0 (length (layout a)) st.
Proof.
  intros Hlabels Hn Hgn Han Hsn.
  apply (for_loop_invariant (tick_inv availableSpace sc0) (tick_body availableSpace)
           0 (length (layout a))); [apply tick_inv_init|].
  intros i st Hi. apply tick_inv_step; [done..|lia].
Qed.

(** *** The whole update *)

(** On a well-formed scene the update does not fail; the scene [sc0] on
    entry of the loop has the labels, the bands and the tick marks of the
    scene given, and the invariant holds on exit of the loop. *)
Lemma updateGeometry_run sc :
  layout a ≠ [] → well_formed a sc →
  ∃ h sc0 scn lines,
    updateGeometry sc =
      Some (mkScene lines (labelItems scn) (shadeItems scn) (arrowItems scn) (titleItem scn)) ∧
    labelItems sc0 = labelItems sc ∧ shadeItems sc0 = shadeItems sc ∧
    (∀ m, arrowItems sc0 !! (m + 1)%nat = arrowItems sc !! (m + 1)%nat) ∧
    tick_inv (available_space sc) sc0 (length (layout a)) (h, scn).
Proof.
  intros Hne (Hlabels & Hl & Hg & Har & Hs).
  unfold VerticalAxis.updateGeometry.
  rewrite bool_decide_false by done.
  rewrite !bool_decide_true by congruence. cbn [andb negb].
  destruct (lookup_lt_is_Some_2 (arrowItems sc) 0) as [arrowItem ->]; [lia|].
  cbn [mbind option_bind].
  unfold VerticalAxis.available_space.
  destruct (title_block truncatedText textBoundingRect boundingRect a (titleItem sc))
    as [title availableSpace]. cbn [snd].
  match goal with |- context [for_loop _ 0 _ (_, ?s)] => set (sc0 := s) end.
  destruct (tick_loop availableSpace sc0) as ([h scn] & -> & Hinv);
    [done | done | cbn; lia | cbn; rewrite length_insert; lia | done |].
  cbn [mbind option_bind].
  assert (∃ lines, boundary_lines a (gridItems scn) = Some lines) as [lines ->].
  { unfold boundary_lines. destruct (intervalAxis a) eqn:Eint; [|by eauto].
    destruct Hinv as (Hglen & _). unfold sc0 in Hglen. cbn [gridItems] in Hglen.
    destruct (vupd_lt (λ gridLine, setLineVisible true
                (setLine (mkLine (QRectF.left (gridGeometry a)) (QRectF.top (gridGeometry a))
                   (QRectF.right (gridGeometry a)) (QRectF.top (gridGeometry a))) gridLine))
                (gridItems scn) (length (layout a))) as (lines1 & -> & Hlen1); [lia|].
    cbn [mbind option_bind].
    destruct (vupd_lt (λ gridLine, setLineVisible true
                (setLine (mkLine (QRectF.left (gridGeometry a)) (QRectF.bottom (gridGeometry a))
                   (QRectF.right (gridGeometry a)) (QRectF.bottom (gridGeometry a))) gridLine))
                lines1 (length (layout a) + 1)) as (lines2 & -> & Hlen2); [lia|].
    by eauto. }
  cbn [mbind option_bind].
  exists h, sc0, scn, lines. split; [done|]. split; [done|]. split; [done|].
  split; [|done]. intros m. unfold sc0. cbn [arrowItems].
  apply list_lookup_insert_ne. lia.
Qed.

(** *** The label of a tick *)

(** On an interval axis the label of a tick that is not the last one is
    moved to the middle of the clamped span and shown: the test that sets
    [forceHide] and the test that hides the label both require that the axis
    is not an interval axis. *)
Lemma label_pass_interval availableSpace i y y' text height t l l' h' :
  intervalAxis a = true → layout a !! (i + 1)%nat = Some y' →
  label_pass availableSpace i y text height t l = Some (l', h') →
  let r := label_text_wrapping truncatedText a availableSpace text l in
  let lowerBound := qMin y (QRectF.bottom (gridGeometry a)) in
  let upperBound := qMax y' (QRectF.top (gridGeometry a)) in
  textVisible l' = true ∧
  py (pos l') =
    lowerBound - (lowerBound - upperBound) / lit 2.0 - py (QRectF.center (boundingRect r.1)).
Proof.
  intros Hint Hy'. unfold VerticalAxis.label_pass.
  destruct (label_text_wrapping _ _ _ _ _) as [l1 bounding]. cbn [fst].
  unfold label_in_between. rewrite Hint. cbn [andb negb].
  rewrite bool_decide_true by (apply lookup_lt_Some in Hy'; lia).
  rewrite Hy'. cbn [mbind option_bind]. rewrite andb_false_r. cbn [mbind option_bind].
  unfold label_overlap_detection. rewrite Hint. cbn [negb]. rewrite andb_false_r.
  by intros [= <- <-].
Qed.

(** Outside interval mode the label is hidden exactly when the test of the
    overlap detection holds, with the value of [height] on entry. *)
Lemma label_pass_plain availableSpace i y text height t l l' h' :
  intervalAxis a = false →
  label_pass availableSpace i y text height t l = Some (l', h') →
  let r := label_text_wrapping truncatedText a availableSpace text l in
  textVisible l' = negb (hidden a height (pos l') (boundingRect r.1) r.2).
Proof.
  intros Hint. unfold VerticalAxis.label_pass.
  destruct (label_text_wrapping _ _ _ _ _) as [l1 bounding]. cbn [fst snd].
  unfold label_in_between. rewrite Hint. cbn [andb mbind option_bind].
  unfold label_overlap_detection. rewrite Hint. cbn [negb].
  rewrite andb_true_r, orb_false_r.
  match goal with |- Some (if ?c then (setVisible _ ?l3, _) else _) = _ → _ =>
    set (cond := c); intros Hrun;
    assert (textVisible l' = negb cond ∧ pos l' = pos l3) as [-> Hpos]
      by (destruct cond; injection Hrun as <- <-; done)
  end.
  unfold hidden. by rewrite Hpos.
Qed.

Lemma threshold_adjacent (ls : list QGraphicsTextItem) i j li :
  (i < j)%nat → ls !! i = Some li → textVisible li = true →
  (∀ k lk, (i < k < j)%nat → ls !! k = Some lk → textVisible lk = false) →
  threshold a ls j = py (pos li).
Proof.
  intros Hij Hi Hvis. induction j as [|j IH]; intros Hbetween; [lia|].
  cbn [threshold]. destruct (decide (j = i)) as [->|Hne].
  - by rewrite Hi, Hvis.
  - assert (threshold a ls j = py (pos li)) as Hj.
    { apply IH; [lia|]. intros k lk Hk. apply Hbetween. lia. }
    destruct (ls !! j) as [lj|] eqn:Ej; [|done].
    by rewrite (Hbetween j lj) by (done || lia).
Qed.

(** Below every visible label: when the visible labels obey the overlap
    test and no label has a negative height, the threshold on entry of
    iteration [j] is at most the top of every visible label before [j]. *)
Lemma threshold_below (ls : list QGraphicsTextItem) (metrics : nat → option (QRectF.t * QRectF.t)) :
  (∀ i l, ls !! i = Some l →
     ∃ rect bounding, metrics i = Some (rect, bounding) ∧ 0 ≤ QRectF.height bounding ∧
       textVisible l = negb (hidden a (threshold a ls i) (pos l) rect bounding)) →
  ∀ j i li, (i < j)%nat → ls !! i = Some li → textVisible li = true →
    threshold a ls j ≤ py (pos li).
Proof.
  intros Hrule. induction j as [|j IH]; intros i li Hij Hi Hvis; [lia|].
  cbn [threshold]. destruct (decide (i = j)) as [->|Hne].
  - rewrite Hi, Hvis. apply Qcle_refl.
  - assert (threshold a ls j ≤ py (pos li)) as Hj by (apply (IH i); [lia|done..]).
    destruct (ls !! j) as [lj|] eqn:Ej; [|done].
    destruct (textVisible lj) eqn:Evj; [|done].
    destruct (Hrule j lj Ej) as (rect & bounding & _ & Hnonneg & Hv).
    rewrite Evj in Hv. symmetry in Hv. apply negb_true_iff in Hv. unfold hidden in Hv.
    apply orb_false_elim in Hv as [Hv _]. apply orb_false_elim in Hv as [Hv _].
    rewrite bool_decide_eq_false in Hv. apply Qcnot_lt_le in Hv.
    revert Hv Hj Hnonneg. generalize (threshold a ls j) (QRectF.height bounding).
    intros u v ? ? ?. qc2q. lra.
Qed.

(** *** The layouts *)

Lemma strictly_decreasing_lookup (l : list qreal) i y y' :
  strictly_decreasing l = true → l !! i = Some y → l !! S i = Some y' → y' < y.
Proof.
  revert i. induction l as [|z l IH]; intros i Hdec Hy Hy'; [done|].
  destruct l as [|z' l]; [by destruct i|].
  cbn [strictly_decreasing] in Hdec. apply andb_prop in Hdec as [H1 H2].
  destruct i as [|i].
  - injection Hy as <-. injection Hy' as <-. by apply bool_decide_eq_true_1 in H1.
  - by apply (IH i).
Qed.

Lemma within_grid_lookup i y :
  within_grid a = true → layout a !! i = Some y →
  QRectF.top (gridGeometry a) ≤ y ∧ y ≤ QRectF.bottom (gridGeometry a).
Proof.
  unfold within_grid. rewrite forallb_forall. intros Hall Hy.
  specialize (Hall y). rewrite <-list_elem_of_In in Hall.
  apply andb_prop in Hall as [H1 H2]; [|by eapply list_elem_of_lookup_2].
  rewrite bool_decide_eq_true in H1. rewrite bool_decide_eq_true in H2. done.
Qed.

(** A band between two ticks of a decreasing layout inside the grid has a
    positive height. *)
Lemma band_height_positive (y' y top bottom : qreal) :
  y < y' → top ≤ y → y' ≤ bottom → 0 < qMin y' bottom - qMax y top.
Proof.
  intros H1 H2 H3. unfold qMin, qMax.
  destruct (decide (y' < bottom)), (decide (y < top)); qc2q; lra.
Qed.

Lemma filter_all {A} (P : A → Prop) `{∀ x, Decision (P x)} (l : list A) :
  (∀ i x, l !! i = Some x → P x) → filter P l = l.
Proof.
  induction l as [|x l IH]; intros Hall; [done|].
  rewrite filter_cons_True by (by apply (Hall 0%nat)).
  f_equal. apply IH. intros i z Hz. by apply (Hall (S i)).
Qed.

(** *** The claims on the layout *)

(** C9.  With an empty layout the update returns the scene it was given:
    no item is written, whatever the scene is. *)
Theorem empty_layout_is_noop sc :
  layout a = [] → updateGeometry sc = Some sc.
Proof. intros H. unfold VerticalAxis.updateGeometry. by rewrite bool_decide_true. Qed.

Lemma updateGeometry_empty sc : layout a = [] → updateGeometry sc = Some sc.
Proof. intros H. unfold VerticalAxis.updateGeometry. by rewrite bool_decide_true. Qed.

(** The label metrics of an update are those of the scene on entry of the
    loop. *)
Lemma label_metrics_entry sc sc0 i l text :
  labelItems sc0 = labelItems sc → labelItems sc0 !! i = Some l →
  labels a !! i = Some text →
  label_metrics sc i =
    Some (boundingRect (label_text_wrapping truncatedText a (available_space sc) text l).1,
          (label_text_wrapping truncatedText a (available_space sc) text l).2).
Proof.
  intros E Hl Htext. unfold VerticalAxis.label_metrics. rewrite <-E, Hl, Htext. done.
Qed.



(** C7 (as amended).  The update of a well-formed scene succeeds.  Band [m]
    is laid out at the tick [2 * m + 2] (the odd positions 3, 5, ... counted
    from 1): its rectangle spans the width of the grid between that tick and
    the previous one, each clamped to the vertical bounds of the grid, and
    it is visible exactly when the height of the rectangle is positive; the
    other bands are not written.  For a layout that decreases strictly (the
    ticks go up the screen) and lies within the vertical bounds of the grid,
    all the [(n - 1) / 2] bands of the [n] ticks are visible. *)
Theorem shade_bands sc :
  well_formed a sc →
  ∃ sc', updateGeometry sc = Some sc' ∧
    (∀ m y' y, layout a !! (2 * m + 1)%nat = Some y' → layout a !! (2 * m + 2)%nat = Some y →
       ∃ r, shadeItems sc' !! m = Some r ∧
         rect r = QRectF.mk (QRectF.left (gridGeometry a))
                    (qMax y (QRectF.top (gridGeometry a)))
                    (QRectF.width (gridGeometry a))
                    (qMin y' (QRectF.bottom (gridGeometry a))
                     - qMax y (QRectF.top (gridGeometry a))) ∧
         (rectVisible r = true ↔ 0 < QRectF.height (rect r))) ∧
    (∀ m, (length (layout a) ≤ 2 * m + 2)%nat → shadeItems sc' !! m = shadeItems sc !! m) ∧
    (strictly_decreasing (layout a) = true → within_grid a = true →
     visible_bands a sc' = band_count (length (layout a))).
Proof.
  intros Hwf. destruct (decide (layout a = [])) as [Hnil|Hne].
  { exists sc. split; [by apply updateGeometry_empty|]. split; [|split].
    - intros m y' y Hy'. by rewrite Hnil in Hy'.
    - done.
    - intros _ _. unfold visible_bands. by rewrite Hnil. }
  destruct (updateGeometry_run sc Hne Hwf) as (h & sc0 & scn & lines & -> & _ & Hs0 & _ & Hinv).
  eexists. split; [done|]. cbn [shadeItems].
  destruct Hinv as (_ & _ & Hslen & _ & _ & _ & _ & _ & _ & _ & Hshades).
  destruct Hwf as (_ & _ & _ & _ & Hsn). rewrite Hs0 in Hshades, Hslen.
  assert (∀ m y' y, layout a !! (2 * m + 1)%nat = Some y' →
    layout a !! (2 * m + 2)%nat = Some y → shadeItems scn !! m = Some (band a y' y)) as Hband.
  { intros m y' y Hy' Hy. rewrite Hshades.
    pose proof (lookup_lt_Some _ _ _ Hy) as Hlt. rewrite decide_True by lia.
    destruct (lookup_lt_is_Some_2 (shadeItems sc) m) as [r ->]; [lia|].
    by rewrite Hy', Hy. }
  split; [|split].
  - intros m y' y Hy' Hy. exists (band a y' y). split; [by apply Hband|]. split; [done|].
    unfold band. cbn [rect rectVisible QRectF.height QRectF.h].
    rewrite negb_true_iff, bool_decide_eq_false, lit_0.
    split; [apply Qcnot_le_lt | apply Qclt_not_le].
  - intros m Hm. rewrite Hshades. by rewrite decide_False by lia.
  - intros Hdec Hin. unfold visible_bands, band_count. cbn [shadeItems].
    rewrite filter_all; [rewrite length_take; lia|].
    intros m r Hr. apply lookup_take_Some in Hr as [Hr Hm].
    destruct (lookup_lt_is_Some_2 (layout a) (2 * m + 1)) as [y' Hy']; [lia|].
    destruct (lookup_lt_is_Some_2 (layout a) (2 * m + 2)) as [y Hy]; [lia|].
    rewrite (Hband m y' y Hy' Hy) in Hr. injection Hr as <-.
    unfold band. cbn [rectVisible]. rewrite negb_true_iff, bool_decide_eq_false, lit_0.
    apply Qclt_not_le.
    destruct (within_grid_lookup _ _ Hin Hy'), (within_grid_lookup _ _ Hin Hy).
    apply band_height_positive; [|done..].
    apply (strictly_decreasing_lookup (layout a) (2 * m + 1)); [done..|].
    by replace (S (2 * m + 1)) with (2 * m + 2)%nat by lia.
Qed.

End Layout.

(** *** The claims on sample axes *)

Local Abbreviation sample_updateGeometry :=
  (updateGeometry sample_truncatedText sample_textBoundingRect sample_boundingRect).
Local Abbreviation sample_label_metrics :=
  (label_metrics sample_truncatedText sample_textBoundingRect sample_boundingRect).

Lemma sample_well_formed interval ys :
  well_formed (sample_axis interval ys) (sample_scene (length ys)).
Proof.
  unfold well_formed, sample_axis, sample_scene.
  cbn [layout labels labelItems gridItems arrowItems shadeItems intervalAxis].
  rewrite !length_replicate. repeat split; try done; destruct interval; lia.
Qed.

Lemma empty_layout_is_noop_witness :
  sample_updateGeometry (sample_axis false []) (sample_scene 3) = Some (sample_scene 3).
Proof.
  apply (empty_layout_is_noop sample_truncatedText sample_textBoundingRect
           sample_boundingRect (sample_axis false []) (sample_scene 3)).
  reflexivity.
Defined.





Lemma shade_bands_witness :
  ∃ sc', sample_updateGeometry (sample_axis false [lit 90; lit 70; lit 50; lit 30; lit 10])
           (sample_scene 5) = Some sc' ∧
    visible_bands (sample_axis false [lit 90; lit 70; lit 50; lit 30; lit 10]) sc' = 2%nat.
Proof.
  destruct (shade_bands sample_truncatedText sample_textBoundingRect sample_boundingRect
              (sample_axis false [lit 90; lit 70; lit 50; lit 30; lit 10]) (sample_scene 5)
              (sample_well_formed false [lit 90; lit 70; lit 50; lit 30; lit 10]))
    as (sc' & Hrun & _ & _ & Hcount).
  exists sc'. split; [exact Hrun|]. apply Hcount; reflexivity.
Defined.

(** The boundary case of four ticks: one band, visible. *)
Lemma four_ticks_one_band :
  visible_bands (sample_axis false [lit 80; lit 60; lit 40; lit 20])
    <$> sample_update false [lit 80; lit 60; lit 40; lit 20] = Some 1%nat.
Proof. by vm_compute. Qed.

(** A decreasing layout that leaves the grid loses bands: with the ticks 150,
    130, 110 and 90 and a grid from 0 to 100, the band between the ticks 130
    and 110 is clamped to the height 100 - 110 and hidden. *)
Lemma band_outside_grid_is_hidden :
  visible_bands (sample_axis false [lit 150; lit 130; lit 110; lit 90])
    <$> sample_update false [lit 150; lit 130; lit 110; lit 90] = Some 0%nat.
Proof. by vm_compute. Qed.

(** C7 (as stated) fails.  With the increasing tick positions 10, 20, 30
    and 40 inside a grid from 0 to 100, the only band, between the ticks 20
    and 30, has the height 20 - 30 and is hidden; the claim counts one
    visible band. *)
Lemma increasing_layout_has_no_visible_band :
  ¬ ∀ truncatedText textBoundingRect boundingRect a sc sc',
      strictly_increasing (layout a) = true → within_grid a = true →
      updateGeometry truncatedText textBoundingRect boundingRect a sc = Some sc' →
      visible_bands a sc' = band_count (length (layout a)).
Proof.
  intros H.
  destruct (sample_update false [lit 10; lit 20; lit 30; lit 40]) as [sc'|] eqn:E;
    [|by vm_compute in E].
  pose proof (H sample_truncatedText sample_textBoundingRect sample_boundingRect
                (sample_axis false [lit 10; lit 20; lit 30; lit 40]) (sample_scene 4) sc'
                eq_refl eq_refl E) as Hcount.
  vm_compute in E. injection E as <-. by vm_compute in Hcount.
Qed.

End VerticalAxisProps.

(** ** The shape of the spline *)

Module CurveProps.
Import Spline Curve SplineProps.

Local Open Scope Qc_scope.

(** *** The control points, segment by segment *)

Lemma general_control_points d :
  (3 ≤ length (points d))%nat →
  ∃ d', updateControlPoints d = Some d' ∧
    ∀ i, (i < length (points d) - 1)%nat →
      cp1 d' i = Some (first_of (thomas (rhs px (points d))) (thomas (rhs py (points d))) i) ∧
      cp2 d' i = Some (second_of (points d) (thomas (rhs px (points d)))
                         (thomas (rhs py (points d))) i).
Proof.
  intros Hps. eexists. split; [by apply update_general|]. intros i Hi.
  unfold cp1, cp2, controlPoint. cbn [m_controlPoints].
  apply (pairs_lookup _ _ 0). done.
Qed.

(** The equations that the first control points satisfy, on one axis. *)
Lemma thomas_rows c ps :
  (3 ≤ length ps)%nat →
  lit 2 * el (thomas (rhs c ps)) 0 + el (thomas (rhs c ps)) 1
    = coord c ps 0 + lit 2 * coord c ps 1 ∧
  (∀ k, (1 ≤ k < length ps - 1 - 1)%nat →
     el (thomas (rhs c ps)) (k - 1) + lit 4 * el (thomas (rhs c ps)) k
       + el (thomas (rhs c ps)) (k + 1)
     = lit 4 * coord c ps k + lit 2 * coord c ps (k + 1)) ∧
  el (thomas (rhs c ps)) (length ps - 1 - 1 - 1)
    + lit 3.5 * el (thomas (rhs c ps)) (length ps - 1 - 1)
    = (lit 8 * coord c ps (length ps - 1 - 1) + coord c ps (length ps - 1)) / lit 2.
Proof.
  intros Hps.
  assert (solves (diagonal (lit 3.5) (length (rhs c ps))) (rhs c ps) (thomas (rhs c ps)))
    as [Hlen Hrows] by (apply solves_iff_thomas; [rewrite length_rhs; lia | done]).
  rewrite length_rhs in Hrows, Hlen.
  assert (∀ i, (i < length ps - 1)%nat → rhs c ps !! i = Some (el (rhs c ps) i)) as Hel
    by (intros i Hi; apply el_lookup; by rewrite length_rhs).
  split; [|split].
  - specialize (Hrows 0%nat ltac:(lia)). pose proof (Hel 0%nat ltac:(lia)) as H0.
    rewrite rhs_lookup in H0 by lia. rewrite decide_True in H0 by done.
    injection H0 as H0. rewrite <-H0 in Hrows. revert Hrows.
    unfold tridiag_row, diagonal. rewrite !decide_True by done. simpl.
    intros H. rewrite <-H. ring.
  - intros k Hk. specialize (Hrows k ltac:(lia)). pose proof (Hel k ltac:(lia)) as H0.
    rewrite rhs_lookup in H0 by lia. rewrite decide_False in H0 by lia.
    rewrite decide_True in H0 by lia.
    injection H0 as H0. rewrite <-H0 in Hrows. revert Hrows.
    unfold tridiag_row, diagonal. rewrite decide_False by lia.
    rewrite decide_False by lia. rewrite decide_True by lia. done.
  - specialize (Hrows (length ps - 1 - 1)%nat ltac:(lia)).
    pose proof (Hel (length ps - 1 - 1)%nat ltac:(lia)) as H0.
    rewrite rhs_lookup in H0 by lia. rewrite !decide_False in H0 by lia.
    injection H0 as H0. rewrite <-H0 in Hrows. revert Hrows.
    unfold tridiag_row, diagonal. rewrite !decide_False by lia.
    rewrite (el_ge _ (length ps - 1 - 1 + 1)) by lia.
    intros H. rewrite <-H. ring.
Qed.

Lemma point_eq (a b c d : qreal) : a = c → b = d → mkPoint a b = mkPoint c d.
Proof. by intros -> ->. Qed.

(** *** Natural ends and continuity *)





(** *** Repeating the update, and its preconditions *)

(** X3.  The update never fails, and running it again changes nothing: the
    series it leaves is a fixed point of the update. *)
Theorem update_is_idempotent d :
  ∃ d', updateControlPoints d = Some d' ∧ updateControlPoints d' = Some d'.
Proof.
  destruct (decide (2 ≤ length (points d))%nat) as [Hps|Hps].
  - eexists. split; [by apply update_closed|]. by rewrite update_closed.
  - exists d. split; apply update_short; lia.
Qed.

(** X4.  The solver needs one equation at least: [firstControlPoints]
    returns a result exactly on the non-empty vectors, and the result has
    the length of the vector. *)
Theorem solver_needs_an_equation vector :
  (is_Some (firstControlPoints vector) ↔ vector ≠ []) ∧
  ∀ result, firstControlPoints vector = Some result → length result = length vector.
Proof.
  destruct vector as [|v vector].
  - split; [|done]. split; [intros [? ?]; done | done].
  - rewrite firstControlPoints_thomas by (simpl; lia). split.
    + split; [done | by eauto].
    + intros result [= <-]. apply length_thomas.
Qed.

(** X5.  [calculateControlPoints] itself has no guard: on a series of fewer
    than two points it fails on [points[0]] or [points[1]], whatever the
    solver and the buffer are.  The guard of [updateControlPoints] is what
    keeps it from running there. *)
Theorem calculate_needs_two_points solver d :
  (length (points d) < 2)%nat → calculateControlPoints_with solver d = None.
Proof.
  intros Hps. destruct d as [[|p [|? ?]] cps]; cbn in Hps; try lia; done.
Qed.

Lemma solver_needs_an_equation_witness : is_Some (firstControlPoints [lit 2; lit 5]).
Proof. by apply (proj1 (solver_needs_an_equation [lit 2; lit 5])). Defined.

Lemma calculate_needs_two_points_witness :
  calculateControlPoints_with firstControlPoints
    (mkSeries [mkPoint (lit 1) (lit 2)] [origin; origin]) = None.
Proof. apply calculate_needs_two_points. simpl. lia. Defined.

(** *** Recognising the first control points *)

Lemma el_fmap_seq (f : nat → qreal) n j :
  el (f <$> seq 0 n) j = if decide (j < n)%nat then f j else 0.
Proof.
  unfold el. rewrite list_lookup_fmap. destruct (decide (j < n)%nat).
  - by rewrite lookup_seq_lt.
  - by rewrite lookup_seq_ge by lia.
Qed.

(** A sequence that satisfies the equations of [thomas_rows] is the sequence
    of the first control points. *)
Lemma thomas_unique c ps (f : nat → qreal) :
  (3 ≤ length ps)%nat →
  lit 2 * f 0%nat + f 1%nat = coord c ps 0 + lit 2 * coord c ps 1 →
  (∀ k, (1 ≤ k < length ps - 1 - 1)%nat →
     f (k - 1)%nat + lit 4 * f k + f (k + 1)%nat
     = lit 4 * coord c ps k + lit 2 * coord c ps (k + 1)) →
  f (length ps - 1 - 1 - 1)%nat + lit 3.5 * f (length ps - 1 - 1)%nat
    = (lit 8 * coord c ps (length ps - 1 - 1) + coord c ps (length ps - 1)) / lit 2 →
  thomas (rhs c ps) = f <$> seq 0 (length ps - 1).
Proof.
  intros Hps H0 Hk Hn. symmetry.
  apply solves_iff_thomas; [rewrite length_rhs; lia|].
  split; [by rewrite length_fmap, length_seq, length_rhs|].
  rewrite length_rhs. intros i Hi.
  assert (rhs c ps !! i = Some (el (rhs c ps) i)) as Hel
    by (apply el_lookup; by rewrite length_rhs).
  rewrite rhs_lookup in Hel by lia. injection Hel as <-.
  unfold tridiag_row, diagonal. rewrite !el_fmap_seq.
  destruct (decide (i = 0)%nat) as [->|Hi0].
  - rewrite !decide_True by lia. simpl. rewrite <-H0. ring.
  - rewrite (decide_True (P := (i - 1 < _)%nat)) by lia.
    rewrite (decide_True (P := (i < length ps - 1)%nat)) by lia.
    destruct (decide (i < length ps - 1 - 1)%nat) as [Hlt|Hge].
    + rewrite decide_True by lia. rewrite <-(Hk i) by lia. done.
    + rewrite decide_False by lia.
      assert (i = (length ps - 1 - 1)%nat) as -> by lia. rewrite <-Hn. ring.
Qed.

(** Two layouts of pairs with the same pairs are equal. *)
Lemma pairs_ext (f g f' g' : nat → QPointF) n :
  (∀ i, (i < n)%nat → f i = f' i ∧ g i = g' i) →
  ((i ← seq 0 n; [f i; g i]) : list QPointF) = (i ← seq 0 n; [f' i; g' i]).
Proof.
  intros H. apply list_eq. intros m.
  destruct (decide (m < 2 * n)%nat) as [Hm|Hm].
  - destruct (Nat.Even_or_Odd m) as [[i ->]|[i ->]].
    + destruct (pairs_lookup f g 0 n i) as [-> _]; [lia|].
      destruct (pairs_lookup f' g' 0 n i) as [-> _]; [lia|].
      rewrite !Nat.add_0_l. by destruct (H i ltac:(lia)) as [-> _].
    + destruct (pairs_lookup f g 0 n i) as [_ ->]; [lia|].
      destruct (pairs_lookup f' g' 0 n i) as [_ ->]; [lia|].
      rewrite !Nat.add_0_l. by destruct (H i ltac:(lia)) as [_ ->].
  - by rewrite !lookup_ge_None_2 by (rewrite length_pairs; lia).
Qed.

Lemma fmap_pairs (h : QPointF → QPointF) (f g : nat → QPointF) n :
  h <$> ((i ← seq 0 n; [f i; g i]) : list QPointF) = (i ← seq 0 n; [h (f i); h (g i)]).
Proof.
  apply list_eq. intros m. rewrite list_lookup_fmap.
  destruct (decide (m < 2 * n)%nat) as [Hm|Hm].
  - destruct (Nat.Even_or_Odd m) as [[i ->]|[i ->]].
    + destruct (pairs_lookup f g 0 n i) as [-> _]; [lia|]. symmetry.
      exact (proj1 (pairs_lookup (λ i, h (f i)) (λ i, h (g i)) 0 n i ltac:(lia))).
    + destruct (pairs_lookup f g 0 n i) as [_ ->]; [lia|]. symmetry.
      exact (proj2 (pairs_lookup (λ i, h (f i)) (λ i, h (g i)) 0 n i ltac:(lia))).
  - by rewrite !lookup_ge_None_2 by (rewrite length_pairs; lia).
Qed.

Lemma of_int_0 : of_int 0 = 0.
Proof. by apply Qc_is_canon. Qed.

Lemma of_int_succ k : of_int (k + 1) = of_int k + 1.
Proof.
  unfold of_int. apply Qc_is_canon. rewrite Real.this_plus, !Real.this_Q2Qc.
  rewrite Nat2Z.inj_add, inject_Z_plus. reflexivity.
Qed.

(** *** Changes of scale and origin *)

Lemma coord_fmap c (h : QPointF → QPointF) s t ps i :
  (∀ p, c (h p) = s * c p + t) → (i < length ps)%nat →
  coord c (h <$> ps) i = s * coord c ps i + t.
Proof.
  intros Hc Hi. unfold coord. rewrite list_lookup_fmap.
  destruct (lookup_lt_is_Some_2 ps i Hi) as [p ->]. apply Hc.
Qed.

Lemma affine_thomas c (h : QPointF → QPointF) s t ps :
  (∀ p, c (h p) = s * c p + t) → (3 ≤ length ps)%nat →
  thomas (rhs c (h <$> ps))
    = (λ i, s * el (thomas (rhs c ps)) i + t) <$> seq 0 (length ps - 1).
Proof.
  intros Hc Hps. destruct (thomas_rows c ps Hps) as (H0 & Hk & Hn).
  rewrite <-(length_fmap h ps).
  apply thomas_unique; rewrite ?length_fmap; [done|..].
  - rewrite !(coord_fmap c h s t) by (done || lia). qc2q. nra.
  - intros k Hk'. specialize (Hk k Hk').
    rewrite !(coord_fmap c h s t) by (done || lia). qc2q. nra.
  - rewrite !(coord_fmap c h s t) by (done || lia). qc2q. nra.
Qed.


(** *** Points on a straight line *)

Lemma length_line_points A D m : length (line_points A D m) = m.
Proof. unfold line_points. by rewrite length_fmap, length_seq. Qed.

Lemma coord_line_points c A D m j :
  (j < m)%nat → coord c (line_points A D m) j = c (along A D (of_int j)).
Proof.
  intros Hj. unfold coord, line_points. by rewrite list_lookup_fmap, lookup_seq_lt.
Qed.

Lemma line_thomas c A D m :
  (∀ t, c (along A D t) = c A + t * c D) → (3 ≤ m)%nat →
  thomas (rhs c (line_points A D m))
    = (λ i, c A + (of_int i + lit (1 # 3)) * c D) <$> seq 0 (m - 1).
Proof.
  intros Hc Hm. rewrite <-(length_line_points A D m) at 2.
  apply thomas_unique; rewrite ?length_line_points; [done|..].
  - rewrite !coord_line_points, !Hc by lia.
    change 1%nat with (0 + 1)%nat. rewrite !of_int_succ, of_int_0. qc2q. lra.
  - intros k Hk. rewrite !coord_line_points, !Hc by lia.
    destruct k as [|k]; [lia|]. replace (S k - 1)%nat with k by lia.
    replace (S k) with (k + 1)%nat by lia. rewrite !of_int_succ. qc2q. lra.
  - rewrite !coord_line_points, !Hc by lia.
    assert (∃ k, m = (k + 1 + 1 + 1)%nat) as [k ->] by (exists (m - 3)%nat; lia).
    replace (k + 1 + 1 + 1 - 1 - 1 - 1)%nat with k by lia.
    replace (k + 1 + 1 + 1 - 1 - 1)%nat with (k + 1)%nat by lia.
    replace (k + 1 + 1 + 1 - 1)%nat with (k + 1 + 1)%nat by lia.
    rewrite !of_int_succ. qc2q. lra.
Qed.


(** *** Reading the points backwards *)

Lemma coord_reverse c ps i j :
  (i < length ps)%nat → j = (length ps - 1 - i)%nat →
  coord c (reverse ps) i = coord c ps j.
Proof.
  intros Hi ->. unfold coord. rewrite reverse_lookup by done.
  by replace (length ps - S i)%nat with (length ps - 1 - i)%nat by lia.
Qed.

Lemma reverse_pairs (f g : nat → QPointF) n :
  reverse ((i ← seq 0 n; [f i; g i]) : list QPointF)
    = (i ← seq 0 n; [g (n - 1 - i)%nat; f (n - 1 - i)%nat]).
Proof.
  apply list_eq. intros m.
  destruct (decide (m < 2 * n)%nat) as [Hm|Hm].
  - rewrite reverse_lookup by (rewrite length_pairs; lia). rewrite length_pairs.
    destruct (Nat.Even_or_Odd m) as [[i ->]|[i ->]].
    + replace (2 * n - S (2 * i))%nat with (2 * (n - 1 - i) + 1)%nat by lia.
      destruct (pairs_lookup f g 0 n (n - 1 - i)) as [_ ->]; [lia|].
      symmetry.
      exact (proj1 (pairs_lookup (λ i, g (n - 1 - i)%nat) (λ i, f (n - 1 - i)%nat)
                      0 n i ltac:(lia))).
    + replace (2 * n - S (2 * i + 1))%nat with (2 * (n - 1 - i))%nat by lia.
      destruct (pairs_lookup f g 0 n (n - 1 - i)) as [-> _]; [lia|].
      symmetry.
      exact (proj2 (pairs_lookup (λ i, g (n - 1 - i)%nat) (λ i, f (n - 1 - i)%nat)
                      0 n i ltac:(lia))).
  - rewrite !lookup_ge_None_2; [done|..].
    + rewrite length_pairs. lia.
    + rewrite length_reverse, length_pairs. lia.
Qed.

(** The first control points of the reversed points are the second control
    points of the points, last segment first. *)
Lemma reverse_thomas c ps :
  (3 ≤ length ps)%nat →
  thomas (rhs c (reverse ps))
    = (λ i, if decide (i = 0)%nat
            then (coord c ps (length ps - 1) + el (thomas (rhs c ps)) (length ps - 1 - 1))
                 / lit 2
            else lit 2 * coord c ps (length ps - 1 - i)
                 - el (thomas (rhs c ps)) (length ps - 1 - i))
      <$> seq 0 (length ps - 1).
Proof.
  intros Hps. destruct (thomas_rows c ps Hps) as (R0 & Rk & Rn).
  match goal with
  | |- _ = ?f <$> _ => pose proof (thomas_unique c (reverse ps) f) as H
  end.
  rewrite !length_reverse in H. apply H; clear H; [done|..]; cbn beta.
  - rewrite (decide_True (P := (0 = 0)%nat)) by done.
    rewrite (decide_False (P := (1 = 0)%nat)) by done.
    rewrite (coord_reverse c ps 0 (length ps - 1)) by lia.
    rewrite (coord_reverse c ps 1 (length ps - 1 - 1)) by lia.
    qc2q. lra.
  - intros k Hk.
    rewrite (decide_False (P := (k = 0)%nat)) by lia.
    rewrite (decide_False (P := (k + 1 = 0)%nat)) by lia.
    rewrite (coord_reverse c ps k (length ps - 1 - k)) by lia.
    rewrite (coord_reverse c ps (k + 1) (length ps - 1 - (k + 1))) by lia.
    destruct (decide (k - 1 = 0)%nat) as [E|E].
    + assert (k = 1%nat) as -> by lia.
      replace (length ps - 1 - (1 + 1))%nat with (length ps - 1 - 1 - 1)%nat by lia.
      revert Rn. qc2q. lra.
    + specialize (Rk (length ps - 1 - k)%nat ltac:(lia)).
      replace (length ps - 1 - k - 1)%nat with (length ps - 1 - (k + 1))%nat in Rk by lia.
      replace (length ps - 1 - k + 1)%nat with (length ps - 1 - (k - 1))%nat in Rk by lia.
      revert Rk. qc2q. lra.
  - rewrite (decide_False (P := (length ps - 1 - 1 = 0)%nat)) by lia.
    rewrite (coord_reverse c ps (length ps - 1 - 1) 1) by lia.
    rewrite (coord_reverse c ps (length ps - 1) 0) by lia.
    replace (length ps - 1 - (length ps - 1 - 1))%nat with 1%nat by lia.
    destruct (decide (length ps - 1 - 1 - 1 = 0)%nat) as [E|E].
    + assert (length ps = 3%nat) as L by lia. rewrite L in Rn |- *.
      change (3 - 1 - 1 - 1)%nat with 0%nat in Rn.
      change (3 - 1 - 1)%nat with 1%nat in Rn. change (3 - 1)%nat with 2%nat in Rn |- *.
      change (2 - 1)%nat with 1%nat.
      revert R0 Rn. qc2q. intros R0 Rn. lra.
    + specialize (Rk 1%nat ltac:(lia)).
      change (1 - 1)%nat with 0%nat in Rk. change (1 + 1)%nat with 2%nat in Rk.
      replace (length ps - 1 - (length ps - 1 - 1 - 1))%nat with 2%nat by lia.
      revert R0 Rk. qc2q. intros R0 Rk. lra.
Qed.


End CurveProps.

(** ** The pen of the theme *)

Module ThemeProps.
Import Theme.

Section Theme.

Context {QColor PenRest : Type} `{EqDecision QColor} `{EqDecision PenRest}.
Context (default_pen : QPen QColor PenRest).

Local Abbreviation initializeTheme := (initializeTheme QColor PenRest default_pen).

Lemma remainder_nonneg index n :
  (0 ≤ index)%Z → (0 < n)%Z → remainder index n = Some (index mod n)%Z.
Proof.
  intros Hi Hn. unfold remainder. rewrite decide_False by lia.
  by rewrite Z.rem_mod_nonneg by lia.
Qed.

Lemma at_mod {A} (l : list A) index :
  l ≠ [] → ∃ c, l !! Z.to_nat (index mod Z.of_nat (length l)) = Some c ∧
                at_ l (index mod Z.of_nat (length l)) = Some c.
Proof.
  intros Hl. assert (0 < Z.of_nat (length l))%Z as Hn by (destruct l; [done|simpl; lia]).
  pose proof (Z.mod_pos_bound index _ Hn) as Hb.
  destruct (lookup_lt_is_Some_2 l (Z.to_nat (index mod Z.of_nat (length l)))) as [c Hc]; [lia|].
  exists c. split; [done|]. unfold at_. by rewrite decide_True by lia.
Qed.

(** X19.  The colours of the theme repeat: with the index of the series not
    negative and a theme that has colours, the series of index
    [index + colors.size()] gets what the series of index [index] gets.  A
    series that is themed by force, or whose pen is the default one, gets
    the default pen with the width 2 and the colour
    [colors[index mod colors.size()]]; a series with a pen of its own keeps
    it unless it is themed by force. *)
Theorem theme_colours_repeat index colors forced m_pen :
  (0 ≤ index)%Z → colors ≠ [] →
  initializeTheme (index + Z.of_nat (length colors)) colors forced m_pen
    = initializeTheme index colors forced m_pen ∧
  (forced = true ∨ m_pen = default_pen →
   ∃ c, colors !! Z.to_nat (index mod Z.of_nat (length colors)) = Some c ∧
     initializeTheme index colors forced m_pen
       = Some (Some (mkPen QColor PenRest c (lit 2) (penRest _ _ default_pen)))) ∧
  (forced = false → m_pen ≠ default_pen →
   initializeTheme index colors forced m_pen = Some None).
Proof.
  intros Hi Hc.
  assert (0 < Z.of_nat (length colors))%Z as Hn by (destruct colors; [done|simpl; lia]).
  unfold Theme.initializeTheme.
  rewrite !remainder_nonneg by lia.
  split; [|split].
  - replace (index + Z.of_nat (length colors))%Z
      with (index + 1 * Z.of_nat (length colors))%Z by lia.
    by rewrite Z_mod_plus_full.
  - intros Hthemed. destruct (at_mod colors index Hc) as (c & Hc1 & Hc2).
    exists c. split; [done|].
    replace (forced || bool_decide (default_pen = m_pen)) with true.
    + cbn [mbind option_bind]. by rewrite Hc2.
    + symmetry. destruct Hthemed as [-> | ->]; [done|].
      rewrite bool_decide_true by done. apply orb_true_r.
  - intros -> Hne. by rewrite bool_decide_false by (by intros <-).
Qed.

End Theme.

Lemma theme_colours_repeat_witness :
  Theme.initializeTheme string unit (mkPen _ _ "black" 1 tt) 4 ["red"; "green"; "blue"] false
    (mkPen _ _ "black" 1 tt)
  = Some (Some (mkPen _ _ "green" (lit 2) tt)).
Proof.
  destruct (theme_colours_repeat (mkPen string unit "black" 1 tt) 4 ["red"; "green"; "blue"]
              false (mkPen _ _ "black" 1 tt)) as (_ & H & _).
  - lia.
  - discriminate.
  - destruct (H (or_intror eq_refl)) as (c & Hc & Hrun).
    injection Hc as <-. exact Hrun.
Defined.

End ThemeProps.

(** ** The lines, the labels and the title after an update *)

Module AxisItemProps.
Import VerticalAxis AxisItems VerticalAxisProps.

(** The partial rule of [for_loop]: what every successful iteration keeps
    holds after a successful loop. *)
Lemma for_loop_partial {St} (Inv : nat → St → Prop) body lo k (s s' : St) :
  Inv lo s →
  (∀ i s s', lo ≤ i < lo + k → Inv i s → body i s = Some s' → Inv (S i) s') →
  for_loop body lo k s = Some s' → Inv (lo + k) s'.
Proof.
  revert lo s. induction k as [|k IH]; intros lo s H0 Hstep; simpl.
  - intros [= <-]. by rewrite Nat.add_0_r.
  - destruct (body lo s) as [s1|] eqn:E1; [|done]. simpl. intros Hrun.
    replace (lo + S k) with (S lo + k) by lia.
    apply (IH (S lo) s1); [|by intros i t t' Hi; apply Hstep; lia|done].
    apply (Hstep lo s s1); [lia|done..].
Qed.

Local Open Scope Qc_scope.

Section Layout.

Context (truncatedText : QFont → string → qreal → qreal → qreal → string * QRectF.t).
Context (textBoundingRect : QFont → string → QRectF.t).
Context (boundingRect : QGraphicsTextItem → QRectF.t).
Context (a : Axis).

Local Abbreviation tick_body := (tick_body truncatedText boundingRect a).
Local Abbreviation label_pass := (label_pass truncatedText boundingRect a).
Local Abbreviation title_block := (title_block truncatedText textBoundingRect boundingRect a).
Local Abbreviation updateGeometry := (updateGeometry truncatedText textBoundingRect boundingRect a).
Local Abbreviation tick_inv := (tick_inv truncatedText boundingRect a).
Local Abbreviation entry_scene := (entry_scene truncatedText textBoundingRect boundingRect a).
Local Abbreviation label_metrics :=
  (label_metrics truncatedText textBoundingRect boundingRect a).
Local Abbreviation available_space :=
  (available_space truncatedText textBoundingRect boundingRect a).
Local Abbreviation sizeHint := (sizeHint textBoundingRect a).
Local Abbreviation title_rect := (title_rect truncatedText textBoundingRect boundingRect a).

(** *** One iteration, read backwards *)

Lemma shades_block_inv i y shades shades' :
  shades_block a i y shades = Some shades' →
  length shades' = length shades ∧
  (((i + 1) mod 2)%nat ≠ 0%nat → (1 < i)%nat → (i / 2 - 1 < length shades)%nat).
Proof.
  unfold shades_block.
  destruct (decide (((i + 1) mod 2)%nat ≠ 0%nat ∧ (1 < i)%nat)) as [[H1 H2]|Hno].
  - rewrite !bool_decide_true by done. cbn [andb].
    destruct (shades !! (i / 2 - 1)%nat) as [r|] eqn:Er; [|done]. cbn [mbind option_bind].
    destruct (layout a !! (i - 1)%nat) as [y'|]; [|done]. cbn [mbind option_bind].
    intros [= <-]. rewrite length_insert. split; [done|]. intros _ _.
    by apply lookup_lt_Some in Er.
  - intros H. assert (shades' = shades) as ->.
    { destruct (decide (((i + 1) mod 2)%nat ≠ 0%nat)) as [H1|H1].
      - rewrite (bool_decide_true _ H1) in H.
        rewrite bool_decide_false in H by (intros H2; by apply Hno). by injection H.
      - rewrite (bool_decide_false _ H1) in H. by injection H. }
    split; [done|]. intros H1 H2. destruct Hno. done.
Qed.

(** A successful iteration has read its items, has passed the label through
    [label_pass] and the bands through the "shades" block, and has stored
    the grid line and the tick mark of the tick. *)
Lemma tick_body_inv availableSpace i h sc h' sc' :
  tick_body availableSpace i (h, sc) = Some (h', sc') →
  ∃ g t l y text l' shades',
    gridItems sc !! i = Some g ∧ arrowItems sc !! (i + 1)%nat = Some t ∧
    labelItems sc !! i = Some l ∧ layout a !! i = Some y ∧ labels a !! i = Some text ∧
    label_pass availableSpace i y text h t l = Some (l', h') ∧
    shades_block a i y (shadeItems sc) = Some shades' ∧
    sc' = mkScene (<[i:=grid_line a y]> (gridItems sc)) (<[i:=l']> (labelItems sc)) shades'
            (<[(i + 1)%nat:=tick_mark a y t]> (arrowItems sc)) (titleItem sc).
Proof.
  unfold VerticalAxis.tick_body.
  destruct (gridItems sc !! i) as [g|] eqn:Eg; [|done].
  destruct (arrowItems sc !! (i + 1)%nat) as [t|] eqn:Et; [|done].
  destruct (labelItems sc !! i) as [l|] eqn:El; [|done].
  destruct (layout a !! i) as [y|] eqn:Ey; [|done].
  cbn [mbind option_bind].
  destruct (labels a !! i) as [text|] eqn:Etext; [|done].
  cbn [mbind option_bind].
  destruct (label_text_wrapping truncatedText a availableSpace text l)
    as [l1 bounding] eqn:Ewrap.
  destruct (ticks_and_label_position a y _ bounding _ _ t) as [l3 t3] eqn:Epos.
  destruct (label_in_between a i y bounding _ l3) as [[forceHide l4]|] eqn:Ebetween; [|done].
  cbn [mbind option_bind].
  destruct (label_overlap_detection a h forceHide _ bounding l4) as [l5 h5] eqn:Eover.
  destruct (shades_block a i y (shadeItems sc)) as [shades'|] eqn:Eshades; [|done].
  cbn [mbind option_bind].
  destruct (grid_and_tick_shown a _ t3) as [g' t'] eqn:Egt.
  intros [= <- <-]. exists g, t, l, y, text, l5, shades'.
  do 5 (split; [done|]).
  split.
  { unfold VerticalAxis.label_pass. rewrite Ewrap, Epos. cbn [fst].
    rewrite Ebetween. cbn [mbind option_bind]. by rewrite Eover. }
  split; [done|].
  assert (g' = grid_line a y ∧ t' = tick_mark a y t) as [-> ->]; [|done].
  unfold grid_and_tick_shown in Egt. cbn [line setLine p1 py] in Egt.
  unfold grid_line, tick_mark, shown.
  assert (line t3 = match alignment a with
                    | AlignLeft =>
                        mkLine (QRectF.right (axisGeometry a) - labelPadding a) y
                               (QRectF.right (axisGeometry a)) y
                    | AlignRight =>
                        mkLine (QRectF.left (axisGeometry a)) y
                               (QRectF.left (axisGeometry a) + labelPadding a) y
                    | _ => line t
                    end) as <-.
  { unfold ticks_and_label_position in Epos.
    by destruct (alignment a); injection Epos as <- <-. }
  destruct (_ || _); by injection Egt as <- <-.
Qed.

(** *** The loop, for the lines *)

Lemma frame_inv_init sc0 h : frame_inv a sc0 0 (h, sc0).
Proof.
  unfold frame_inv. cbn [snd]. repeat split; try done; try lia.
Qed.

Lemma frame_inv_step availableSpace sc0 k st st' :
  frame_inv a sc0 k st → tick_body availableSpace k st = Some st' →
  frame_inv a sc0 (S k) st'.
Proof.
  destruct st as [h sc], st' as [h' sc'].
  intros (Hg & Hl & Hs & Har & Ht & H0 & Hkg & Hka & Hks & Hgrid & Harr & Hdone) Hrun.
  cbn [snd] in *.
  destruct (tick_body_inv _ _ _ _ _ _ Hrun)
    as (g & t & l & y & text & l' & shades' & Eg & Et & El & Ey & Etext & Hpass & Hsh & ->).
  destruct (shades_block_inv _ _ _ _ Hsh) as [Hshlen Hshidx].
  pose proof (lookup_lt_Some _ _ _ Eg) as Hgi.
  pose proof (lookup_lt_Some _ _ _ Et) as Hti.
  unfold frame_inv. cbn [snd gridItems labelItems shadeItems arrowItems titleItem].
  rewrite !length_insert.
  split; [done|]. split; [done|]. split; [lia|]. split; [done|]. split; [done|].
  split; [by rewrite list_lookup_insert_ne by lia|].
  split; [lia|]. split; [lia|]. split; [|split; [|split]].
  - destruct (decide (((k + 1) mod 2)%nat ≠ 0%nat ∧ (1 < k)%nat)) as [[H1 H2]|Hno].
    + specialize (Hshidx H1 H2). lia.
    + assert ((S k - 1) / 2 = (k - 1) / 2)%nat by lia. lia.
  - intros m Hm. rewrite list_lookup_insert_ne by lia. apply Hgrid. lia.
  - intros m Hm. rewrite list_lookup_insert_ne by lia. apply Harr. lia.
  - intros m ym Hm Eym. destruct (decide (m = k)) as [->|Hne].
    + rewrite Ey in Eym. injection Eym as <-.
      rewrite !list_lookup_insert_eq by lia. split; [done|].
      exists t. split; [|done]. by rewrite <-Harr by lia.
    + rewrite !list_lookup_insert_ne by lia. apply Hdone; [lia|done].
Qed.

Lemma frame_loop availableSpace sc0 n h st :
  for_loop (tick_body availableSpace) 0 n (h, sc0) = Some st → frame_inv a sc0 n st.
Proof.
  intros Hrun.
  apply (for_loop_partial (frame_inv a sc0) (tick_body availableSpace) 0 n (h, sc0) st);
    [apply frame_inv_init | | done].
  intros i s s' _. apply frame_inv_step.
Qed.

(** *** The whole update, read backwards *)

(** A successful update of a layout with ticks has passed the two
    assertions, has read the arrow item, has run the loop from the scene
    on entry and has laid out the boundary lines. *)
Lemma updateGeometry_inv sc sc' :
  layout a ≠ [] → updateGeometry sc = Some sc' →
  length (labelItems sc) = length (labels a) ∧ length (layout a) = length (labels a) ∧
  ∃ arrow0 h scn lines,
    arrowItems sc !! 0%nat = Some arrow0 ∧
    for_loop (tick_body (available_space sc)) 0 (length (layout a))
      (QRectF.bottom (axisGeometry a), entry_scene sc arrow0) = Some (h, scn) ∧
    boundary_lines a (gridItems scn) = Some lines ∧
    sc' = mkScene lines (labelItems scn) (shadeItems scn) (arrowItems scn) (titleItem scn).
Proof.
  intros Hne. unfold VerticalAxis.updateGeometry.
  rewrite bool_decide_false by done.
  destruct (decide (length (labelItems sc) = length (labels a))) as [E1|E1];
    [|by rewrite (bool_decide_false _ E1)].
  destruct (decide (length (layout a) = length (labels a))) as [E2|E2];
    [|by rewrite (bool_decide_false _ E2), andb_false_r].
  rewrite (bool_decide_true _ E1), (bool_decide_true _ E2). cbn [andb negb].
  destruct (arrowItems sc !! 0%nat) as [arrow0|] eqn:Earrow; [|done].
  cbn [mbind option_bind].
  unfold VerticalAxis.available_space, AxisItems.entry_scene, arrow_line.
  destruct (title_block (titleItem sc)) as [title availableSpace]. cbn [fst snd].
  destruct (for_loop _ _ _ _) as [[h scn]|] eqn:Eloop; [|done].
  cbn [mbind option_bind].
  destruct (boundary_lines a (gridItems scn)) as [lines|] eqn:Elines; [|done].
  cbn [mbind option_bind]. intros [= <-].
  split; [done|]. split; [done|]. exists arrow0, h, scn, lines. done.
Qed.

(** On a well-formed scene the update succeeds, and both invariants of the
    loop hold on its exit. *)
Lemma updateGeometry_items sc :
  layout a ≠ [] → well_formed a sc →
  ∃ arrow0 h scn lines,
    arrowItems sc !! 0%nat = Some arrow0 ∧
    updateGeometry sc =
      Some (mkScene lines (labelItems scn) (shadeItems scn) (arrowItems scn) (titleItem scn)) ∧
    tick_inv (available_space sc) (entry_scene sc arrow0) (length (layout a)) (h, scn) ∧
    frame_inv a (entry_scene sc arrow0) (length (layout a)) (h, scn) ∧
    boundary_lines a (gridItems scn) = Some lines.
Proof.
  intros Hne Hwf.
  destruct (updateGeometry_run truncatedText textBoundingRect boundingRect a sc Hne Hwf)
    as (h0 & sc0 & scn0 & lines0 & Hrun & _).
  destruct (updateGeometry_inv _ _ Hne Hrun)
    as (_ & _ & arrow0 & h & scn & lines & Earrow & Hloop & Hlines & E).
  destruct Hwf as (Hlabels & Hl & Hg & Har & Hs).
  exists arrow0, h, scn, lines. split; [done|]. split; [by rewrite Hrun, E|].
  split; [|split; [by eapply frame_loop|done]].
  destruct (tick_loop truncatedText textBoundingRect boundingRect a (available_space sc)
              (entry_scene sc arrow0))
    as (st & Hloop' & Hinv); [done | done | cbn; lia | cbn; rewrite length_insert; lia | done |].
  rewrite Hloop in Hloop'. by injection Hloop' as <-.
Qed.

Lemma boundary_lines_inv ls lines :
  boundary_lines a ls = Some lines →
  length lines = length ls ∧
  (∀ m, m ≠ length (layout a) → m ≠ (length (layout a) + 1)%nat → lines !! m = ls !! m) ∧
  if intervalAxis a then
    (length (layout a) + 1 < length ls)%nat ∧
    lines !! length (layout a) =
      Some (mkLineItem (mkLine (QRectF.left (gridGeometry a)) (QRectF.top (gridGeometry a))
                               (QRectF.right (gridGeometry a)) (QRectF.top (gridGeometry a)))
                       true) ∧
    lines !! (length (layout a) + 1)%nat =
      Some (mkLineItem (mkLine (QRectF.left (gridGeometry a)) (QRectF.bottom (gridGeometry a))
                               (QRectF.right (gridGeometry a)) (QRectF.bottom (gridGeometry a)))
                       true)
  else lines = ls.
Proof.
  unfold boundary_lines. destruct (intervalAxis a).
  - unfold vupd. destruct (ls !! length (layout a)) as [g1|] eqn:E1; [|done].
    cbn [mbind option_bind]. rewrite list_lookup_insert_ne by lia.
    destruct (ls !! (length (layout a) + 1)%nat) as [g2|] eqn:E2; [|done].
    cbn [mbind option_bind]. intros [= <-].
    pose proof (lookup_lt_Some _ _ _ E1). pose proof (lookup_lt_Some _ _ _ E2).
    rewrite !length_insert. split; [done|]. split; [|split; [done|split]].
    + intros m H1 H2. by rewrite !list_lookup_insert_ne by done.
    + rewrite list_lookup_insert_ne by lia. by rewrite list_lookup_insert_eq by lia.
    + by rewrite list_lookup_insert_eq by (rewrite length_insert; lia).
  - by intros [= <-].
Qed.

Lemma shown_spec y :
  shown a y = true ↔
  QRectF.top (gridGeometry a) ≤ y ∧ y ≤ QRectF.bottom (gridGeometry a).
Proof.
  unfold shown.
  destruct (decide (y < QRectF.top (gridGeometry a))) as [H1|H1];
    destruct (decide (QRectF.bottom (gridGeometry a) < y)) as [H2|H2];
    rewrite ?(bool_decide_true _ H1), ?(bool_decide_false _ H1),
            ?(bool_decide_true _ H2), ?(bool_decide_false _ H2); cbn.
  - split; [done|]. intros [H _]. by apply Qcle_not_lt in H.
  - split; [done|]. intros [H _]. by apply Qcle_not_lt in H.
  - split; [done|]. intros [_ H]. by apply Qcle_not_lt in H.
  - split; [|done]. intros _. split; by apply Qcnot_lt_le.
Qed.

(** *** When the update succeeds *)

(** X9.  The update succeeds exactly when there is no tick or the scene is
    well formed: with ticks, the two assertions and every [at] of the
    update are in range exactly on the scenes that have one label item per
    tick and per label, a grid line per tick (two more on an interval axis),
    the arrow and a tick mark per tick, and a band for every second slot. *)
Theorem update_succeeds_iff_well_formed sc :
  is_Some (updateGeometry sc) ↔ layout a = [] ∨ well_formed a sc.
Proof.
  split.
  - intros [sc' Hrun]. destruct (decide (layout a = [])) as [Hnil|Hne]; [by left|right].
    destruct (updateGeometry_inv _ _ Hne Hrun)
      as (E1 & E2 & arrow0 & h & scn & lines & Earrow & Hloop & Hlines & _).
    pose proof (frame_loop _ _ _ _ _ Hloop)
      as (Hg & _ & _ & _ & _ & _ & Hkg & Hka & Hks & _). cbn [snd] in *.
    destruct (boundary_lines_inv _ _ Hlines) as (_ & _ & Hint).
    unfold AxisItems.entry_scene in *.
    cbn [gridItems shadeItems arrowItems] in *. rewrite length_insert in Hka.
    assert (0 < length (layout a))%nat by (destruct (layout a); [done|simpl; lia]).
    unfold well_formed. split; [done|]. split; [congruence|].
    split; [|split; [by apply Hka|done]].
    destruct (intervalAxis a); [|lia]. destruct Hint as [Hint _]. lia.
  - intros [Hnil|Hwf]; [by rewrite updateGeometry_empty|].
    destruct (decide (layout a = [])) as [Hnil|Hne]; [by rewrite updateGeometry_empty|].
    destruct (updateGeometry_run truncatedText textBoundingRect boundingRect a sc Hne Hwf)
      as (h & sc0 & scn & lines & -> & _). done.
Qed.

(** *** The lines *)

(** X10.  After the update of a well-formed scene the grid line of every
    tick runs across the grid at the height of the tick, and it is shown
    exactly when the tick lies between the top and the bottom of the grid,
    both included. *)
Theorem grid_lines_follow_the_ticks sc :
  well_formed a sc →
  ∃ sc', updateGeometry sc = Some sc' ∧
    ∀ i y, layout a !! i = Some y →
      ∃ g, gridItems sc' !! i = Some g ∧
        line g = mkLine (QRectF.left (gridGeometry a)) y (QRectF.right (gridGeometry a)) y ∧
        (lineVisible g = true ↔
         QRectF.top (gridGeometry a) ≤ y ∧ y ≤ QRectF.bottom (gridGeometry a)).
Proof.
  intros Hwf. destruct (decide (layout a = [])) as [Hnil|Hne].
  { exists sc. split; [by apply updateGeometry_empty|]. intros i y Hy. by rewrite Hnil in Hy. }
  destruct (updateGeometry_items sc Hne Hwf)
    as (arrow0 & h & scn & lines & _ & -> & _ & Hframe & Hlines).
  eexists. split; [done|]. cbn [gridItems]. intros i y Hy.
  destruct Hframe as (_ & _ & _ & _ & _ & _ & _ & _ & _ & _ & _ & Hdone). cbn [snd] in Hdone.
  pose proof (lookup_lt_Some _ _ _ Hy) as Hi.
  destruct (Hdone i y Hi Hy) as [Hg _].
  destruct (boundary_lines_inv _ _ Hlines) as (_ & Hsame & _).
  exists (grid_line a y). rewrite Hsame by lia. split; [done|]. split; [done|].
  apply shown_spec.
Qed.

(** X11.  After the update of a well-formed scene the tick mark of every
    tick is shown exactly when the tick lies between the top and the bottom
    of the grid; on an axis at the left it runs at the height of the tick
    from the label padding to the right edge of the axis rectangle, on an
    axis at the right from the left edge to the label padding, and with
    another alignment its line is left as it was. *)
Theorem tick_marks_follow_the_ticks sc :
  well_formed a sc →
  ∃ sc', updateGeometry sc = Some sc' ∧
    ∀ i y, layout a !! i = Some y →
      ∃ t t', arrowItems sc !! (i + 1)%nat = Some t ∧
        arrowItems sc' !! (i + 1)%nat = Some t' ∧
        (lineVisible t' = true ↔
         QRectF.top (gridGeometry a) ≤ y ∧ y ≤ QRectF.bottom (gridGeometry a)) ∧
        line t' =
          match alignment a with
          | AlignLeft =>
              mkLine (QRectF.right (axisGeometry a) - labelPadding a) y
                     (QRectF.right (axisGeometry a)) y
          | AlignRight =>
              mkLine (QRectF.left (axisGeometry a)) y
                     (QRectF.left (axisGeometry a) + labelPadding a) y
          | _ => line t
          end.
Proof.
  intros Hwf. destruct (decide (layout a = [])) as [Hnil|Hne].
  { exists sc. split; [by apply updateGeometry_empty|]. intros i y Hy. by rewrite Hnil in Hy. }
  destruct (updateGeometry_items sc Hne Hwf)
    as (arrow0 & h & scn & lines & _ & -> & _ & Hframe & _).
  eexists. split; [done|]. cbn [arrowItems]. intros i y Hy.
  destruct Hframe as (_ & _ & _ & _ & _ & _ & _ & _ & _ & _ & _ & Hdone). cbn [snd] in Hdone.
  pose proof (lookup_lt_Some _ _ _ Hy) as Hi.
  destruct (Hdone i y Hi Hy) as (_ & t & Et & Et').
  unfold AxisItems.entry_scene in Et. cbn [arrowItems] in Et.
  rewrite list_lookup_insert_ne in Et by lia.
  exists t, (tick_mark a y t). split; [done|]. split; [done|].
  split; [apply shown_spec|done].
Qed.

(** X12.  On an interval axis with ticks the two grid lines that follow
    those of the ticks are laid along the top and the bottom of the grid
    and shown. *)
Theorem interval_axis_boundary_lines sc :
  intervalAxis a = true → layout a ≠ [] → well_formed a sc →
  ∃ sc', updateGeometry sc = Some sc' ∧
    gridItems sc' !! length (layout a) =
      Some (mkLineItem (mkLine (QRectF.left (gridGeometry a)) (QRectF.top (gridGeometry a))
                               (QRectF.right (gridGeometry a)) (QRectF.top (gridGeometry a)))
                       true) ∧
    gridItems sc' !! (length (layout a) + 1)%nat =
      Some (mkLineItem (mkLine (QRectF.left (gridGeometry a)) (QRectF.bottom (gridGeometry a))
                               (QRectF.right (gridGeometry a)) (QRectF.bottom (gridGeometry a)))
                       true).
Proof.
  intros Hint Hne Hwf.
  destruct (updateGeometry_items sc Hne Hwf)
    as (arrow0 & h & scn & lines & _ & -> & _ & _ & Hlines).
  eexists. split; [done|]. cbn [gridItems].
  destruct (boundary_lines_inv _ _ Hlines) as (_ & _ & H). rewrite Hint in H.
  by destruct H as (_ & H1 & H2).
Qed.

(** X13.  The update of a well-formed scene adds and removes no item, and
    it leaves alone the grid lines after those of the ticks (after the two
    boundary lines on an interval axis), the lines after the tick marks,
    and the bands after the last one that the layout has. *)
Theorem update_keeps_the_other_items sc :
  well_formed a sc →
  ∃ sc', updateGeometry sc = Some sc' ∧
    length (gridItems sc') = length (gridItems sc) ∧
    length (labelItems sc') = length (labelItems sc) ∧
    length (shadeItems sc') = length (shadeItems sc) ∧
    length (arrowItems sc') = length (arrowItems sc) ∧
    (∀ m, (length (layout a) + (if intervalAxis a then 2 else 0) ≤ m)%nat →
       gridItems sc' !! m = gridItems sc !! m) ∧
    (∀ m, (length (layout a) + 1 ≤ m)%nat → arrowItems sc' !! m = arrowItems sc !! m) ∧
    (∀ m, (band_count (length (layout a)) ≤ m)%nat →
       shadeItems sc' !! m = shadeItems sc !! m).
Proof.
  intros Hwf. destruct (decide (layout a = [])) as [Hnil|Hne].
  { exists sc. split; [by apply updateGeometry_empty|]. done. }
  destruct (updateGeometry_items sc Hne Hwf)
    as (arrow0 & h & scn & lines & _ & -> & Hinv & Hframe & Hlines).
  eexists. split; [done|]. cbn [gridItems labelItems shadeItems arrowItems].
  destruct Hframe as (Hg & Hl & Hs & Har & _ & _ & _ & _ & _ & Hgrid & Harr & _).
  cbn [snd] in *. unfold AxisItems.entry_scene in *.
  cbn [gridItems labelItems shadeItems arrowItems] in *. rewrite length_insert in Har.
  destruct (boundary_lines_inv _ _ Hlines) as (Hlen & Hsame & Hint).
  split; [congruence|]. split; [done|]. split; [done|]. split; [done|].
  split; [|split].
  - intros m Hm.
    assert (length (layout a) ≤ m)%nat as Hm' by lia.
    destruct (intervalAxis a).
    + rewrite Hsame by lia. by apply Hgrid.
    + rewrite Hint. by apply Hgrid.
  - intros m Hm. destruct m as [|m]; [lia|].
    replace (S m) with (m + 1)%nat by lia. rewrite Harr by lia.
    apply list_lookup_insert_ne. lia.
  - intros m Hm. unfold band_count in Hm.
    destruct Hinv as (_ & _ & _ & _ & _ & _ & _ & _ & _ & _ & Hshades).
    rewrite Hshades. rewrite decide_False by lia. done.
Qed.

(** X14.  The update of a well-formed scene with ticks lays the arrow
    along the edge of the axis rectangle that faces the grid, from the top
    to the bottom of the grid: the right edge for an axis at the left, the
    left edge for an axis at the right.  With another alignment the line is
    left as it was; whether the arrow is shown is never changed. *)
Theorem arrow_spans_the_grid sc :
  layout a ≠ [] → well_formed a sc →
  ∃ sc' arrow0 arrow',
    updateGeometry sc = Some sc' ∧
    arrowItems sc !! 0%nat = Some arrow0 ∧ arrowItems sc' !! 0%nat = Some arrow' ∧
    lineVisible arrow' = lineVisible arrow0 ∧
    line arrow' =
      match alignment a with
      | AlignLeft =>
          mkLine (QRectF.right (axisGeometry a)) (QRectF.top (gridGeometry a))
                 (QRectF.right (axisGeometry a)) (QRectF.bottom (gridGeometry a))
      | AlignRight =>
          mkLine (QRectF.left (axisGeometry a)) (QRectF.top (gridGeometry a))
                 (QRectF.left (axisGeometry a)) (QRectF.bottom (gridGeometry a))
      | _ => line arrow0
      end.
Proof.
  intros Hne Hwf.
  destruct (updateGeometry_items sc Hne Hwf)
    as (arrow0 & h & scn & lines & Earrow & -> & _ & Hframe & _).
  destruct Hframe as (_ & _ & _ & _ & _ & H0 & _). cbn [snd] in H0.
  unfold AxisItems.entry_scene in H0. cbn [arrowItems] in H0.
  rewrite list_lookup_insert_eq in H0 by (by apply lookup_lt_Some in Earrow).
  eexists _, arrow0, (arrow_line a arrow0). split; [done|]. cbn [arrowItems].
  split; [done|]. split; [done|]. unfold arrow_line. by destruct (alignment a).
Qed.

(** *** The labels *)

Lemma label_text_wrapping_item availableSpace text l :
  ∃ s, (label_text_wrapping truncatedText a availableSpace text l).1 = setHtml s l.
Proof. unfold label_text_wrapping. destruct (isEmpty text); by eexists. Qed.

(** What [label_pass] makes of the label item, apart from whether it is
    shown. *)
Lemma label_pass_item availableSpace i y text height t l l' h' :
  label_pass availableSpace i y text height t l = Some (l', h') →
  let r := label_text_wrapping truncatedText a availableSpace text l in
  let rect := boundingRect r.1 in
  transformOriginPoint l' = QRectF.center rect ∧
  rotation l' = rotation l ∧
  px (pos l') =
    match alignment a with
    | AlignLeft =>
        QRectF.right (axisGeometry a) - QRectF.width rect
        + (QRectF.width rect - QRectF.width r.2) / lit 2.0 - labelPadding a
    | AlignRight =>
        QRectF.left (axisGeometry a) + labelPadding a
        - (QRectF.width rect - QRectF.width r.2) / lit 2.0
    | _ => px (pos l)
    end ∧
  (intervalAxis a = false ∨ (i + 1)%nat = length (layout a) →
   py (pos l') =
     match alignment a with
     | AlignLeft | AlignRight => y - py (QRectF.center rect)
     | _ => py (pos l)
     end ∧
   (intervalAxis a = true → textVisible l' = true)).
Proof.
  unfold VerticalAxis.label_pass.
  destruct (label_text_wrapping_item availableSpace text l) as [s Es].
  destruct (label_text_wrapping truncatedText a availableSpace text l) as [l1 bounding].
  cbn [fst snd] in *. subst l1.
  set (rect := boundingRect (setHtml s l)).
  assert (∃ l3, (ticks_and_label_position a y rect bounding (QRectF.center rect)
                   (setTransformOriginPoint
                      (mkPoint (px (QRectF.center rect)) (py (QRectF.center rect)))
                      (setHtml s l)) t).1 = l3 ∧
           transformOriginPoint l3 = QRectF.center rect ∧ rotation l3 = rotation l ∧
           px (pos l3) =
             match alignment a with
             | AlignLeft =>
                 QRectF.right (axisGeometry a) - QRectF.width rect
                 + (QRectF.width rect - QRectF.width bounding) / lit 2.0 - labelPadding a
             | AlignRight =>
                 QRectF.left (axisGeometry a) + labelPadding a
                 - (QRectF.width rect - QRectF.width bounding) / lit 2.0
             | _ => px (pos l)
             end ∧
           py (pos l3) =
             match alignment a with
             | AlignLeft | AlignRight => y - py (QRectF.center rect)
             | _ => py (pos l)
             end) as (l3 & -> & Ho & Hr & Hx & Hy).
  { eexists. split; [done|]. unfold ticks_and_label_position.
    by destruct (alignment a). }
  intros Hrun.
  assert (∃ forceHide l4,
            label_in_between a i y bounding (QRectF.center rect) l3 = Some (forceHide, l4) ∧
            transformOriginPoint l4 = transformOriginPoint l3 ∧ rotation l4 = rotation l3 ∧
            px (pos l4) = px (pos l3) ∧
            (intervalAxis a = false ∨ (i + 1)%nat = length (layout a) →
             l4 = l3)) as (forceHide & l4 & E4 & Ho4 & Hr4 & Hx4 & Hy4).
  { destruct (label_in_between a i y bounding (QRectF.center rect) l3)
      as [[forceHide l4]|] eqn:E; [|done].
    exists forceHide, l4. split; [done|]. revert E. unfold label_in_between.
    destruct (intervalAxis a) eqn:Eint; cbn [andb].
    - destruct (decide ((i + 1)%nat = length (layout a))) as [Hi|Hi].
      + rewrite bool_decide_false by (by intros H). intros [= <- <-]. done.
      + rewrite bool_decide_true by done.
        destruct (layout a !! (i + 1)%nat) as [y'|]; [|done]. cbn [mbind option_bind].
        rewrite andb_false_r. intros [= <- <-].
        split; [done|]. split; [done|]. split; [done|]. by intros [?|?].
    - intros [= <- <-]. done. }
  rewrite E4 in Hrun. cbn [mbind option_bind] in Hrun.
  assert (transformOriginPoint l' = transformOriginPoint l4 ∧ rotation l' = rotation l4 ∧
          pos l' = pos l4 ∧ (intervalAxis a = true → textVisible l' = true))
    as (Ho' & Hr' & Hp' & Hv').
  { revert Hrun. unfold label_overlap_detection.
    destruct (intervalAxis a); cbn [negb]; rewrite ?andb_false_r.
    - by intros [= <- <-].
    - destruct (_ && _); by intros [= <- <-]. }
  split; [congruence|]. split; [congruence|]. split; [congruence|].
  intros Hi. split; [|done]. rewrite Hp', (Hy4 Hi). done.
Qed.

(** The label of a tick after the update of a well-formed scene with
    ticks: the item of the scene given, gone through [label_pass]. *)
Lemma updated_label sc i y :
  layout a ≠ [] → well_formed a sc → layout a !! i = Some y →
  ∃ sc' l t text height l' h',
    updateGeometry sc = Some sc' ∧
    labelItems sc !! i = Some l ∧ labels a !! i = Some text ∧
    label_pass (available_space sc) i y text height t l = Some (l', h') ∧
    labelItems sc' !! i = Some l' ∧
    label_metrics sc i =
      Some (boundingRect (label_text_wrapping truncatedText a (available_space sc) text l).1,
            (label_text_wrapping truncatedText a (available_space sc) text l).2).
Proof.
  intros Hne Hwf Hy.
  destruct (updateGeometry_items sc Hne Hwf)
    as (arrow0 & h & scn & lines & _ & -> & Hinv & _ & _).
  destruct Hinv as (_ & _ & _ & _ & _ & _ & _ & _ & _ & Hdone & _).
  destruct (Hdone i) as (l & t & y0 & text & l' & El & _ & Ey & Etext & Hpass & El');
    [by apply lookup_lt_Some in Hy|].
  assert (y0 = y) as -> by congruence.
  unfold AxisItems.entry_scene in El. cbn [labelItems] in El.
  eexists _, l, t, text, _, l', _. split; [done|]. split; [done|]. split; [done|].
  split; [done|]. split; [done|].
  unfold VerticalAxis.label_metrics. by rewrite El, Etext.
Qed.



Lemma label_pass_html availableSpace i y text height t l l' h' :
  label_pass availableSpace i y text height t l = Some (l', h') →
  html l' = html (label_text_wrapping truncatedText a availableSpace text l).1.
Proof.
  unfold VerticalAxis.label_pass.
  destruct (label_text_wrapping truncatedText a availableSpace text l) as [l1 bounding].
  cbn [fst].
  destruct (ticks_and_label_position a y _ bounding _ _ t) as [l3 t3] eqn:Epos. cbn [fst].
  assert (html l3 = html l1) as <-.
  { unfold ticks_and_label_position in Epos.
    by destruct (alignment a); injection Epos as <- <-. }
  destruct (label_in_between a i y bounding _ l3) as [[forceHide l4]|] eqn:E4; [|done].
  cbn [mbind option_bind].
  assert (html l4 = html l3) as <-.
  { revert E4. unfold label_in_between. destruct (_ && _); [|by intros [= <- <-]].
    destruct (layout a !! (i + 1)%nat) as [y'|]; [|done]. cbn [mbind option_bind].
    destruct (_ && _); by intros [= <- <-]. }
  unfold label_overlap_detection. destruct (_ && _); by intros [= <- <-].
Qed.

(** X20.  After the update of a well-formed scene every label item shows
    the text of its label: an empty text as it is, any other text truncated
    at the angle of the labels to the space that the title leaves and to the
    height of one slot, the height of the axis rectangle divided by the
    number of ticks less twice the label padding.  The update does not turn
    the label items. *)
Theorem labels_show_the_truncated_texts sc :
  well_formed a sc →
  ∃ sc', updateGeometry sc = Some sc' ∧
    ∀ i text, labels a !! i = Some text →
      ∃ l l', labelItems sc !! i = Some l ∧ labelItems sc' !! i = Some l' ∧
        rotation l' = rotation l ∧
        html l' =
          if isEmpty text then text
          else (truncatedText (labelsFont a) text (labelsAngle a) (available_space sc)
                  (QRectF.height (axisGeometry a) / of_int (length (layout a))
                   - lit 2 * labelPadding a)).1.
Proof.
  intros Hwf. destruct (decide (layout a = [])) as [Hnil|Hne].
  { exists sc. split; [by apply updateGeometry_empty|]. intros i text Htext.
    destruct Hwf as (Hlabels & _). rewrite Hnil in Hlabels.
    apply lookup_lt_Some in Htext. simpl in Hlabels. lia. }
  destruct (updateGeometry_run truncatedText textBoundingRect boundingRect a sc Hne Hwf)
    as (h0 & sc0 & scn0 & lines0 & Hrun & _).
  eexists. split; [done|]. intros i text Htext.
  destruct (lookup_lt_is_Some_2 (layout a) i) as [y Hy].
  { destruct Hwf as (Hlabels & _). apply lookup_lt_Some in Htext. lia. }
  destruct (updated_label sc i y Hne Hwf Hy)
    as (sc' & l & t & text' & height & l' & h' & Hrun' & El & Etext & Hpass & El' & _).
  rewrite Hrun in Hrun'. injection Hrun' as <-.
  assert (text' = text) as -> by congruence.
  exists l, l'. split; [done|]. split; [done|].
  destruct (label_pass_item _ _ _ _ _ _ _ _ _ Hpass) as (_ & Hrot & _).
  split; [done|]. rewrite (label_pass_html _ _ _ _ _ _ _ _ _ Hpass).
  unfold label_text_wrapping. by destruct (isEmpty text).
Qed.

(** *** Updating twice *)

(** The lines and the bands after the update of a well-formed scene with
    ticks, slot by slot. *)
Lemma updated_lines sc :
  layout a ≠ [] → well_formed a sc →
  ∃ sc' arrow0,
    updateGeometry sc = Some sc' ∧ well_formed a sc' ∧
    arrowItems sc !! 0%nat = Some arrow0 ∧
    arrowItems sc' !! 0%nat = Some (arrow_line a arrow0) ∧
    (∀ m y, layout a !! m = Some y →
       gridItems sc' !! m = Some (grid_line a y) ∧
       ∃ t, arrowItems sc !! (m + 1)%nat = Some t ∧
            arrowItems sc' !! (m + 1)%nat = Some (tick_mark a y t)) ∧
    (∀ m, (length (layout a) + 1 ≤ m)%nat → arrowItems sc' !! m = arrowItems sc !! m) ∧
    (∀ m, (length (layout a) ≤ m)%nat →
       gridItems sc' !! m = gridItems sc !! m ∨
       intervalAxis a = true ∧ (m < length (layout a) + 2)%nat ∧
       gridItems sc' !! m =
         Some (mkLineItem
                 (mkLine (QRectF.left (gridGeometry a))
                    (if decide (m = length (layout a)) then QRectF.top (gridGeometry a)
                     else QRectF.bottom (gridGeometry a))
                    (QRectF.right (gridGeometry a))
                    (if decide (m = length (layout a)) then QRectF.top (gridGeometry a)
                     else QRectF.bottom (gridGeometry a))) true)) ∧
    (∀ m, shadeItems sc' !! m =
       if decide (2 * m + 2 < length (layout a))%nat then
         _ ← shadeItems sc !! m;
         y' ← layout a !! (2 * m + 1)%nat;
         y ← layout a !! (2 * m + 2)%nat;
         Some (band a y' y)
       else shadeItems sc !! m).
Proof.
  intros Hne Hwf.
  destruct (updateGeometry_items sc Hne Hwf)
    as (arrow0 & h & scn & lines & Earrow & Hrun & Hinv & Hframe & Hlines).
  destruct Hframe as (Hg & Hl & Hs & Har & _ & H0 & _ & _ & _ & Hgrid & Harr & Hdone).
  destruct Hinv as (_ & _ & _ & _ & _ & _ & _ & _ & _ & _ & Hshades).
  cbn [snd] in *. unfold AxisItems.entry_scene in *.
  cbn [gridItems labelItems shadeItems arrowItems] in *. rewrite length_insert in Har.
  destruct (boundary_lines_inv _ _ Hlines) as (Hlen & Hsame & Hint).
  eexists _, arrow0. split; [exact Hrun|]. cbn [gridItems labelItems shadeItems arrowItems].
  split; [|split; [done|split; [|split; [|split; [|split]]]]].
  - destruct Hwf as (? & ? & ? & ? & ?). unfold well_formed.
    cbn [gridItems labelItems shadeItems arrowItems]. rewrite Hlen, Hg, Hl, Hs, Har. done.
  - rewrite H0. apply list_lookup_insert_eq. by apply lookup_lt_Some in Earrow.
  - intros m y Hy. pose proof (lookup_lt_Some _ _ _ Hy) as Hm.
    destruct (Hdone m y Hm Hy) as (Eg & t & Et & Et').
    rewrite list_lookup_insert_ne in Et by lia.
    rewrite Hsame by lia. split; [done|]. by exists t.
  - intros m Hm. destruct m as [|m]; [lia|].
    replace (S m) with (m + 1)%nat by lia. rewrite Harr by lia.
    apply list_lookup_insert_ne. lia.
  - intros m Hm. destruct (intervalAxis a).
    + destruct Hint as (_ & Htop & Hbottom).
      destruct (decide (m = length (layout a))) as [->|H1].
      { right. split; [done|]. split; [lia|]. done. }
      destruct (decide (m = (length (layout a) + 1)%nat)) as [->|H2].
      { right. split; [done|]. split; [lia|]. done. }
      left. rewrite Hsame by done. by apply Hgrid.
    + left. rewrite Hint. by apply Hgrid.
  - done.
Qed.

Lemma tick_mark_again y t : tick_mark a y (tick_mark a y t) = tick_mark a y t.
Proof. unfold tick_mark. by destruct (alignment a). Qed.

Lemma arrow_line_again t : arrow_line a (arrow_line a t) = arrow_line a t.
Proof. unfold arrow_line. by destruct (alignment a). Qed.


(** *** The title *)



End Layout.

(** *** The properties on sample axes *)

Local Abbreviation sample_updateGeometry :=
  (updateGeometry sample_truncatedText sample_textBoundingRect sample_boundingRect).
Local Abbreviation sample_label_metrics :=
  (label_metrics sample_truncatedText sample_textBoundingRect sample_boundingRect).
Local Abbreviation three_ticks := [lit 90; lit 50; lit 10].

Lemma titled_well_formed interval ys :
  well_formed (titled_axis interval ys) (titled_scene (length ys)).
Proof. apply (sample_well_formed interval ys). Qed.

Lemma grid_lines_follow_the_ticks_witness :
  ∃ sc', sample_updateGeometry (sample_axis false three_ticks) (sample_scene 3) = Some sc' ∧
    ∃ g, gridItems sc' !! 1%nat = Some g ∧
      line g = mkLine (lit 40) (lit 50) (lit 40 + lit 200) (lit 50) ∧ lineVisible g = true.
Proof.
  destruct (grid_lines_follow_the_ticks sample_truncatedText sample_textBoundingRect
              sample_boundingRect (sample_axis false three_ticks) (sample_scene 3)
              (sample_well_formed false three_ticks)) as (sc' & Hrun & H).
  exists sc'. split; [exact Hrun|].
  destruct (H 1%nat (lit 50) eq_refl) as (g & Eg & Hline & Hvis).
  exists g. split; [exact Eg|]. split; [exact Hline|].
  apply Hvis. split; by vm_compute.
Defined.

Lemma tick_marks_follow_the_ticks_witness :
  ∃ sc', sample_updateGeometry (sample_axis false three_ticks) (sample_scene 3) = Some sc' ∧
    ∃ t', arrowItems sc' !! 2%nat = Some t' ∧
      line t' = mkLine (0 + lit 40 - lit 5) (lit 50) (0 + lit 40) (lit 50) ∧
      lineVisible t' = true.
Proof.
  destruct (tick_marks_follow_the_ticks sample_truncatedText sample_textBoundingRect
              sample_boundingRect (sample_axis false three_ticks) (sample_scene 3)
              (sample_well_formed false three_ticks)) as (sc' & Hrun & H).
  exists sc'. split; [exact Hrun|].
  destruct (H 1%nat (lit 50) eq_refl) as (t & t' & _ & Et' & Hvis & Hline).
  exists t'. split; [exact Et'|]. split; [exact Hline|].
  apply Hvis. split; by vm_compute.
Defined.

Lemma interval_axis_boundary_lines_witness :
  ∃ sc', sample_updateGeometry (sample_axis true three_ticks) (sample_scene 3) = Some sc' ∧
    gridItems sc' !! 3%nat
      = Some (mkLineItem (mkLine (lit 40) 0 (lit 40 + lit 200) 0) true) ∧
    gridItems sc' !! 4%nat
      = Some (mkLineItem (mkLine (lit 40) (0 + lit 100) (lit 40 + lit 200) (0 + lit 100)) true).
Proof.
  apply (interval_axis_boundary_lines sample_truncatedText sample_textBoundingRect
           sample_boundingRect (sample_axis true three_ticks) (sample_scene 3)).
  - reflexivity.
  - discriminate.
  - apply sample_well_formed.
Defined.

Lemma update_keeps_the_other_items_witness :
  ∃ sc', sample_updateGeometry (sample_axis false three_ticks) (sample_scene 3) = Some sc' ∧
    length (gridItems sc') = 5%nat ∧
    gridItems sc' !! 3%nat = Some (mkLineItem (mkLine 0 0 0 0) false).
Proof.
  destruct (update_keeps_the_other_items sample_truncatedText sample_textBoundingRect
              sample_boundingRect (sample_axis false three_ticks) (sample_scene 3)
              (sample_well_formed false three_ticks))
    as (sc' & Hrun & Hg & _ & _ & _ & Hgrid & _).
  exists sc'. split; [exact Hrun|]. split; [exact Hg|].
  apply (Hgrid 3%nat). simpl. lia.
Defined.

Lemma arrow_spans_the_grid_witness :
  ∃ sc' arrow',
    sample_updateGeometry (sample_axis false three_ticks) (sample_scene 3) = Some sc' ∧
    arrowItems sc' !! 0%nat = Some arrow' ∧
    line arrow' = mkLine (0 + lit 40) 0 (0 + lit 40) (0 + lit 100).
Proof.
  destruct (arrow_spans_the_grid sample_truncatedText sample_textBoundingRect
              sample_boundingRect (sample_axis false three_ticks) (sample_scene 3))
    as (sc' & arrow0 & arrow' & Hrun & _ & E & _ & Hline).
  - discriminate.
  - apply sample_well_formed.
  - exists sc', arrow'. split; [exact Hrun|]. split; [exact E|]. exact Hline.
Defined.



Lemma labels_show_the_truncated_texts_witness :
  ∃ sc', sample_updateGeometry (sample_axis false three_ticks) (sample_scene 3) = Some sc' ∧
    ∃ l', labelItems sc' !! 1%nat = Some l' ∧ html l' = "x" ∧ rotation l' = 0.
Proof.
  destruct (labels_show_the_truncated_texts sample_truncatedText sample_textBoundingRect
              sample_boundingRect (sample_axis false three_ticks) (sample_scene 3)
              (sample_well_formed false three_ticks)) as (sc' & Hrun & H).
  exists sc'. split; [exact Hrun|].
  destruct (H 1%nat "x" eq_refl) as (l & l' & El & El' & Hrot & Hhtml).
  exists l'. split; [exact El'|]. split; [exact Hhtml|].
  injection El as <-. exact Hrot.
Defined.




End AxisItemProps.
